(** * Consistent-hash ring ([go/exp/container/hashring/hashring.go])

    A shallow embedding of the [HashRing] type and of its membership and
    lookup operations, followed by the properties of the ring that the
    design document states, each settled against the embedded code.

    Conventions of the embedding.
    - [uint32] ring positions and Go [int] counters are integers in [Z];
      slice indices are natural numbers.  No operation of the ring does
      arithmetic on positions (they are only compared and used as map
      keys), and the [int] counters only count loop iterations, so no
      wrap-around is reachable.
    - [nodeByKey] and [weightByNode] are finite maps, [allNodes] a finite
      set.  Go iterates over a map in an unspecified order: wherever the
      order of [range c.allNodes] can influence the result, the embedded
      function takes the order as an explicit list [ks], and the step
      relation lets it be any permutation of the set's elements.
    - The two placement loops have no static bound (their budget grows on
      collisions), so they take fuel; [None] means the fuel ran out.
    - An index out of range is a Go panic; the lookup functions that index
      [sortedKeys] return [None] for it. *)

From stdpp Require Import base option numbers list sorting fin_maps gmap sets strings pretty.
From Stdlib Require Import ZArith Lia.

#[local] Set Warnings "-clear-no-such-hyp".

Local Open Scope Z_scope.

(** ** The ring state *)

Record HashRing (Node : Type) `{Countable Node} := MkHashRing {
  sortedKeys : list Z;            (* []HashKey, ascending *)
  nodeByKey : gmap Z Node;        (* <HashKey,Node> *)
  allNodes : gset Node;           (* <Node> *)
  weightByNode : gmap Node Z;
  isWeighted : bool;
  numReps : Z
}.

Arguments MkHashRing {Node _ _} _ _ _ _ _ _.
Arguments sortedKeys {Node _ _} _.
Arguments nodeByKey {Node _ _} _.
Arguments allNodes {Node _ _} _.
Arguments weightByNode {Node _ _} _.
Arguments isWeighted {Node _ _} _.
Arguments numReps {Node _ _} _.

(** The membership operations of the public interface. *)
Inductive Op (Node : Type) : Type :=
  | OpAddNodes (nodes : list Node)
  | OpSetNodes (nodes : list Node)
  | OpRemoveNodes (nodes : list Node)
  | OpRemoveAllNodes.

Arguments OpAddNodes {Node} _.
Arguments OpSetNodes {Node} _.
Arguments OpRemoveNodes {Node} _.
Arguments OpRemoveAllNodes {Node}.

(** ** [slices.BinarySearchFunc]

    The loop of the Go standard library: [i, j := 0, n], and while
    [i < j] the midpoint [h] replaces [i] by [h + 1] when
    [cmp(x[h], target) < 0] and [j] by [h] otherwise.  The interval
    shrinks at every turn, so [length x] turns are enough. *)

Fixpoint bsearch_loop (cmp : Z → Z → Z) (x : list Z) (target : Z)
    (fuel : nat) (i j : nat) : nat :=
  match fuel with
  | O => i
  | S fuel' =>
      if (i <? j)%nat then
        let h := ((i + j) / 2)%nat in
        if cmp (x !!! h) target <? 0
        then bsearch_loop cmp x target fuel' (h + 1)%nat j
        else bsearch_loop cmp x target fuel' i h
      else i
  end.

Definition BinarySearchFunc (x : list Z) (target : Z) (cmp : Z → Z → Z)
    : nat * bool :=
  let n := length x in
  let i := bsearch_loop cmp x target n 0%nat n in
  (i, (i <? n)%nat && (cmp (x !!! i) target =? 0)).

(** The comparison closure of [tailSearch]. *)
Definition tailCmp (v key : Z) : Z := if key <=? v then 0 else -1.

(** Collaborators of the ring that [hashring.go] uses but does not
    define.
    - [zeroN] is the zero value of the node type ([var zeroN Node]).
    - [FormatNodeKey] is the node key formatter.
    - [getIterateHashKeyForNode] derives the ring positions of a node's
      replica (the formatter's label fed to the hash algorithm, which may
      give several positions per call).
    - [getHashKey] hashes a lookup key to a ring position.
    - [pointerPerServer] is the target count of [setWeightNodes],
      [int(math.Floor(percent*float64(numReps)*float64(nodeCount) + 1e10))]
      with [percent = float64(thisWeight)/float64(totalWeight)].  It is
      float64 arithmetic and is kept abstract, as a function of the four
      integers it is computed from (this weight, total weight, replica
      count, node count). *)
Class Collaborators (Node : Type) := MkCollaborators {
  zeroN : Node;
  FormatNodeKey : Node → Z → string;
  getIterateHashKeyForNode : Node → Z → list Z;
  getHashKey : string → Z;
  pointerPerServer : Z → Z → Z → Z → Z
}.

Arguments MkCollaborators {Node} _ _ _ _ _.

Section hashring.

Context {Node : Type} `{Countable Node} {env : Collaborators Node}.

Abbreviation Ring := (HashRing Node).

(** ** Construction and the simple operations *)

(** [New], after the options have set the replica count, the weights and
    the mode flag. *)
Definition New (reps : Z) (weights : gmap Node Z) (weighted : bool) : Ring :=
  MkHashRing [] ∅ ∅ weights
    (if weighted && (size weights =? 0)%nat then false else weighted) reps.

Definition RemoveAllNodes (c : Ring) : Ring :=
  MkHashRing [] ∅ ∅ (weightByNode c) (isWeighted c) (numReps c).

Definition getNodeRepetitions (c : Ring) : Z := numReps c.

Definition isSameNode (n1 n2 : Node) : bool :=
  bool_decide (FormatNodeKey n1 0 = FormatNodeKey n2 0).

(** [updateSortedNodes]: the keys of [nodeByKey], sorted ascending.  (The
    reuse of the old buffer only concerns capacity.) *)
Definition updateSortedNodes (c : Ring) : Ring :=
  MkHashRing (merge_sort Z.le (map_to_list (nodeByKey c)).*1)
    (nodeByKey c) (allNodes c) (weightByNode c) (isWeighted c) (numReps c).

(** ** Placement *)

(** The inner loop of [addNodeWithoutSort], [for j, pos := range positions]:
    returns the budget and the table after it. *)
Fixpoint placePositions (node : Node) (i : Z) (j : Z) (positions : list Z)
    (reps : Z) (m : gmap Z Node) : Z * gmap Z Node :=
  match positions with
  | [] => (reps, m)
  | pos :: rest =>
      if reps <? i + j then (reps, m)                        (* out of bound *)
      else match m !! pos with
           | Some _ => placePositions node i (j + 1) rest (reps + 1) m
           | None => placePositions node i (j + 1) rest reps (<[pos:=node]> m)
           end
  end.

(** The outer loop, [for i := 0; i < numReps; { ... }].  An empty
    derivation leaves the loop ([break]). *)
Fixpoint addLoop (fuel : nat) (node : Node) (i reps : Z) (m : gmap Z Node)
    : option (gmap Z Node) :=
  match fuel with
  | O => None
  | S fuel' =>
      if i <? reps then
        let positions := getIterateHashKeyForNode node i in
        if (length positions =? 0)%nat then Some m
        else
          let '(reps', m') := placePositions node i 0 positions reps m in
          addLoop fuel' node (i + Z.of_nat (length positions)) reps' m'
      else Some m
  end.

Definition addNodeWithoutSort (fuel : nat) (c : Ring) (node : Node) (reps : Z)
    : option Ring :=
  m ← addLoop fuel node 0 reps (nodeByKey c);
  Some (MkHashRing (sortedKeys c) m ({[node]} ∪ allNodes c)
          (weightByNode c) (isWeighted c) (numReps c)).

Fixpoint addEach (fuel : nat) (c : Ring) (nodes : list Node) : option Ring :=
  match nodes with
  | [] => Some c
  | node :: rest =>
      c' ← addNodeWithoutSort fuel c node (getNodeRepetitions c);
      addEach fuel c' rest
  end.

Definition addNoWeightNodes (fuel : nat) (c : Ring) (nodes : list Node)
    : option Ring :=
  updateSortedNodes <$> addEach fuel c nodes.

(** ** Removal *)

(** The inner loop of [removeNoWeightNodes]. *)
Fixpoint unplacePositions (node : Node) (i : Z) (j : Z) (positions : list Z)
    (reps : Z) (m : gmap Z Node) : Z * gmap Z Node :=
  match positions with
  | [] => (reps, m)
  | pos :: rest =>
      if reps <? i + j then (reps, m)                        (* out of bound *)
      else match m !! pos with
           | Some n =>
               if negb (isSameNode n node)
               then unplacePositions node i (j + 1) rest (reps + 1) m
               else unplacePositions node i (j + 1) rest reps (delete pos m)
           | None => unplacePositions node i (j + 1) rest reps m
           end
  end.

(** Its outer loop; an empty derivation is skipped ([continue]). *)
Fixpoint removeLoop (fuel : nat) (node : Node) (i reps : Z) (m : gmap Z Node)
    : option (Z * gmap Z Node) :=
  match fuel with
  | O => None
  | S fuel' =>
      if i <? reps then
        let positions := getIterateHashKeyForNode node i in
        if (length positions =? 0)%nat
        then removeLoop fuel' node (i + 1) (reps + 1) m
        else
          let '(reps', m') := unplacePositions node i 0 positions reps m in
          removeLoop fuel' node (i + Z.of_nat (length positions)) reps' m'
      else Some (reps, m)
  end.

(** The loop over the nodes.  The budget [reps] is declared before it and
    is therefore carried from one node to the next. *)
Fixpoint removeEach (fuel : nat) (nodes : list Node) (reps : Z)
    (m : gmap Z Node) (members : gset Node) : option (gmap Z Node * gset Node) :=
  match nodes with
  | [] => Some (m, members)
  | node :: rest =>
      '(reps', m') ← removeLoop fuel node 0 reps m;
      removeEach fuel rest reps' m' (members ∖ {[node]})
  end.

Definition removeNoWeightNodes (fuel : nat) (c : Ring) (nodes : list Node)
    : option Ring :=
  '(m, members) ← removeEach fuel nodes (getNodeRepetitions c)
                     (nodeByKey c) (allNodes c);
  Some (updateSortedNodes
          (MkHashRing (sortedKeys c) m members
             (weightByNode c) (isWeighted c) (numReps c))).

(** ** Replacing the node set *)

(** The members that match no entry of [nodes], in the iteration order
    [ks] of [allNodes]. *)
Definition nodesToBeRemoved (ks nodes : list Node) : list Node :=
  filter (λ k, ¬ Is_true (existsb (λ v, isSameNode k v) nodes)) ks.

(** The entries of [nodes] that match no member.  The inner loop only
    tests existence, so the iteration order of the set is immaterial. *)
Definition nodesToBeAdded (members : gset Node) (nodes : list Node) : list Node :=
  filter (λ k, ¬ Is_true (existsb (λ v, isSameNode k v) (elements members))) nodes.

(** The test that selects [RemoveAllNodes]. *)
Definition takesFullClear (ks nodes : list Node) : bool :=
  (length (nodesToBeRemoved ks nodes) =? length nodes)%nat.

Definition setNoWeightNodes (ks : list Node) (fuel : nat) (c : Ring)
    (nodes : list Node) : option Ring :=
  c1 ← (if takesFullClear ks nodes
        then Some (RemoveAllNodes c)
        else removeNoWeightNodes fuel c (nodesToBeRemoved ks nodes));
  addNoWeightNodes fuel c1 (nodesToBeAdded (allNodes c1) nodes).

Definition weightOf (c : Ring) (node : Node) : Z :=
  default 0 (weightByNode c !! node).

Fixpoint addEachWeighted (fuel : nat) (c : Ring) (totalWeight nodeCount : Z)
    (nodes : list Node) : option Ring :=
  match nodes with
  | [] => Some c
  | node :: rest =>
      c' ← addNodeWithoutSort fuel c node
             (pointerPerServer (weightOf c node) totalWeight
                (getNodeRepetitions c) nodeCount);
      addEachWeighted fuel c' totalWeight nodeCount rest
  end.

Definition setWeightNodes (fuel : nat) (c : Ring) (nodes : list Node)
    : option Ring :=
  let c0 := RemoveAllNodes c in
  let nodeCount := Z.of_nat (length nodes) in
  let totalWeight := foldl (λ acc node, acc + weightOf c0 node) 0 nodes in
  updateSortedNodes <$> addEachWeighted fuel c0 totalWeight nodeCount nodes.

(** [addWeightNodes]; [ks] is the order of [getAllNodes()]. *)
Definition addWeightNodes (ks : list Node) (fuel : nat) (c : Ring)
    (nodes : list Node) : option Ring :=
  setWeightNodes fuel c (ks ++ nodes).

(** [removeWeightNodes]; [ks] is the order of [getAllNodes()] once the
    nodes have been deleted from [allNodes]. *)
Definition removeWeightNodes (ks : list Node) (fuel : nat) (c : Ring)
    (nodes : list Node) : option Ring :=
  setWeightNodes fuel
    (MkHashRing (sortedKeys c) (nodeByKey c) (allNodes c ∖ list_to_set nodes)
       (weightByNode c) (isWeighted c) (numReps c))
    ks.

(** ** The public membership operations *)

Definition AddNodes (ks : list Node) (fuel : nat) (c : Ring) (nodes : list Node)
    : option Ring :=
  if isWeighted c then addWeightNodes ks fuel c nodes
  else addNoWeightNodes fuel c nodes.

Definition SetNodes (ks : list Node) (fuel : nat) (c : Ring) (nodes : list Node)
    : option Ring :=
  if isWeighted c then setWeightNodes fuel c nodes
  else setNoWeightNodes ks fuel c nodes.

Definition RemoveNodes (ks : list Node) (fuel : nat) (c : Ring)
    (nodes : list Node) : option Ring :=
  if isWeighted c then removeWeightNodes ks fuel c nodes
  else removeNoWeightNodes fuel c nodes.

Definition runOp (ks : list Node) (fuel : nat) (c : Ring) (o : Op Node)
    : option Ring :=
  match o with
  | OpAddNodes nodes => AddNodes ks fuel c nodes
  | OpSetNodes nodes => SetNodes ks fuel c nodes
  | OpRemoveNodes nodes => RemoveNodes ks fuel c nodes
  | OpRemoveAllNodes => Some (RemoveAllNodes c)
  end.

(** The set whose iteration order an operation observes. *)
Definition iteratedSet (c : Ring) (o : Op Node) : gset Node :=
  match o with
  | OpRemoveNodes nodes =>
      if isWeighted c then allNodes c ∖ list_to_set nodes else allNodes c
  | _ => allNodes c
  end.

(** One call of a membership operation that returns. *)
Inductive step (c : Ring) (o : Op Node) (c' : Ring) : Prop :=
  | step_run (ks : list Node) (fuel : nat) :
      ks ≡ₚ elements (iteratedSet c o) →
      runOp ks fuel c o = Some c' →
      step c o c'.

(** The rings a client can hold: a new ring, then any sequence of
    membership operations. *)
Inductive reachable : Ring → Prop :=
  | reachable_New reps weights weighted :
      reachable (New reps weights weighted)
  | reachable_step c o c' :
      reachable c → step c o c' → reachable c'.

(** ** Lookup *)

Definition tailSearch (c : Ring) (key : Z) : nat * bool :=
  BinarySearchFunc (sortedKeys c) key tailCmp.

(** [c.nodeByKey[c.sortedKeys[keyIndex]]]: the index must be in range, a
    missing map key gives the zero node. *)
Definition getNodeByHashKeyIndex (c : Ring) (keyIndex : nat) : option Node :=
  k ← sortedKeys c !! keyIndex;
  Some (default zeroN (nodeByKey c !! k)).

Definition getNodeByHashKey (c : Ring) (hash : Z) : option (Node * bool) :=
  if (length (sortedKeys c) =? 0)%nat then Some (zeroN, false)
  else match nodeByKey c !! hash with
       | Some rv => Some (rv, true)
       | None =>
           let '(firstKey, found) := tailSearch c hash in
           let firstKey := if found then firstKey else 0%nat in
           node ← getNodeByHashKeyIndex c firstKey;
           Some (node, true)
       end.

Definition getPrimaryNode (c : Ring) (name : string) : option (Node * bool) :=
  getNodeByHashKey c (getHashKey name).

Definition Get (c : Ring) (name : string) : option (Node * bool) :=
  if (size (nodeByKey c) =? 0)%nat then Some (zeroN, false)
  else getPrimaryNode c name.

(** [GetSince] returns an iterator, a function of the consumer's [yield]
    callback.  The callback may keep state between calls, so it is a
    function of the nodes it was given before and of the node it is given
    now; it answers whether the iteration should go on.  The embedding
    returns the nodes passed to [yield], in order. *)
Definition consumeAll : list Node → Node → bool := λ _ _, true.

(** The loop, [for i := start + 1; i != start; i++].  [nodesSet] is the
    set of nodes already yielded, [out] the nodes yielded so far.  When
    [i] has run past the last index the body sets it to [-1] and the post
    statement brings it to [0], where the loop condition is tested
    again. *)
Fixpoint sinceLoop (fuel : nat) (c : Ring) (yield : list Node → Node → bool)
    (start i : nat) (nodesSet : gset Node) (out : list Node)
    : option (list Node) :=
  match fuel with
  | O => None
  | S fuel' =>
      if (i =? start)%nat then Some out
      else if (length (sortedKeys c) <=? i)%nat
           then sinceLoop fuel' c yield start 0%nat nodesSet out
           else
             secondNode ← getNodeByHashKeyIndex c i;
             if decide (secondNode ∈ nodesSet)
             then sinceLoop fuel' c yield start (i + 1)%nat nodesSet out
             else if negb (yield out secondNode)
                  then Some (out ++ [secondNode])
                  else sinceLoop fuel' c yield start (i + 1)%nat
                         ({[secondNode]} ∪ nodesSet) (out ++ [secondNode])
  end.

(** The loop makes at most [len(sortedKeys) + 1] turns. *)
Definition GetSince (c : Ring) (name : string)
    (yield : list Node → Node → bool) : option (list Node) :=
  if (size (nodeByKey c) =? 0)%nat then Some []
  else
    let '(firstKey, found) := tailSearch c (getHashKey name) in
    let firstKey := if found then firstKey else 0%nat in
    firstNode ← getNodeByHashKeyIndex c firstKey;
    if negb (yield [] firstNode) then Some [firstNode]
    else sinceLoop (length (sortedKeys c) + 2) c yield firstKey
           (firstKey + 1)%nat {[firstNode]} [firstNode].

(** ** Vocabulary of the properties *)

(** [sortedKeys] holds the keys of [nodeByKey] in ascending order. *)
Definition wellSorted (c : Ring) : Prop :=
  sortedKeys c = merge_sort Z.le (map_to_list (nodeByKey c)).*1.

(** [p] is a stored position. *)
Definition stored (c : Ring) (p : Z) : Prop := is_Some (nodeByKey c !! p).

(** [p] is the smallest stored position that is at least [h]. *)
Definition leastStoredFrom (c : Ring) (h p : Z) : Prop :=
  stored c p ∧ h ≤ p ∧ ∀ q, stored c q → h ≤ q → p ≤ q.

(** [p] is the smallest stored position. *)
Definition leastStored (c : Ring) (p : Z) : Prop :=
  stored c p ∧ ∀ q, stored c q → p ≤ q.

(** The positions that [node] owns, and the nodes that own a position. *)
Definition positionsOf (c : Ring) (node : Node) : gset Z :=
  dom (filter (λ kv, kv.2 = node) (nodeByKey c)).

Definition owners (c : Ring) : gset Node :=
  list_to_set (map_to_list (nodeByKey c)).*2.

(** No two distinct nodes of the collection have the same replica-0 label. *)
Definition labelsDistinct (s : gset Node) : Prop :=
  ∀ a b, a ∈ s → b ∈ s → isSameNode a b = true → a = b.

Definition labelsDistinctIn (l : list Node) : Prop :=
  ∀ a b, a ∈ l → b ∈ l → isSameNode a b = true → a = b.

(** The index at which resolution and traversal start: where
    [tailSearch] lands, or 0 when it finds no position. *)
Definition startIndex (c : Ring) (h : Z) : nat :=
  let '(firstKey, found) := tailSearch c h in
  if found then firstKey else 0%nat.

(** The owners of the positions, in the order of [sortedKeys]. *)
Definition ownersInOrder (c : Ring) : list Node :=
  (λ k, default zeroN (nodeByKey c !! k)) <$> sortedKeys c.

(** The nodes of a list that are not in [seen] and have not occurred
    earlier in the list. *)
Fixpoint yieldNew (seen : gset Node) (l : list Node) : list Node :=
  match l with
  | [] => []
  | x :: rest =>
      if decide (x ∈ seen) then yieldNew seen rest
      else x :: yieldNew ({[x]} ∪ seen) rest
  end.

(** The fields that placement and removal leave alone. *)
Definition sameSettings (c c' : Ring) : Prop :=
  weightByNode c' = weightByNode c ∧ isWeighted c' = isWeighted c ∧
  numReps c' = numReps c.

End hashring.

(** * Concrete rings

    Small configurations on which the operations are run.  Nodes are
    integers and every ring has two replicas per node. *)

(** A hash algorithm with one collision.  Replica [i] of node [n] is
    labelled ["n-i"] and derives the single position [100 n + i], except
    that replica 0 of node 2 derives position 100, the position of
    replica 0 of node 1.  A lookup key hashes to 50 times its length. *)
Module Collide.

Definition format (n : Z) (i : Z) : string := pretty n +:+ "-" +:+ pretty i.

Definition positions (n : Z) (i : Z) : list Z :=
  if decide (n = 2 ∧ i = 0) then [100] else [100 * n + i].

Definition hashKey (name : string) : Z := 50 * Z.of_nat (String.length name).

Definition env : Collaborators Z :=
  MkCollaborators 0 format positions hashKey (λ _ _ reps _, reps).

Definition table (l : list (Z * Z)) : gmap Z Z := list_to_map l.
Definition members (l : list Z) : gset Z := list_to_set l.

(** [New] with two replicas per node, unweighted. *)
Definition ring0 : HashRing Z := New 2 ∅ false.

(** After [AddNodes(1)]. *)
Definition ring1 : HashRing Z :=
  MkHashRing [100; 101] (table [(100, 1); (101, 1)]) (members [1]) ∅ false 2.

(** After [AddNodes(1)], [AddNodes(2)]: node 2 met the collision at its
    replica 0 and was given replicas 1 and 2 instead. *)
Definition ring12 : HashRing Z :=
  MkHashRing [100; 101; 201; 202]
    (table [(100, 1); (101, 1); (201, 2); (202, 2)]) (members [1; 2]) ∅ false 2.

(** After [RemoveNodes(1)] on [ring12]. *)
Definition ring2 : HashRing Z :=
  MkHashRing [201; 202] (table [(201, 2); (202, 2)]) (members [2]) ∅ false 2.

(** After [RemoveNodes(2)] (or [SetNodes()]) on [ring2]: no member is
    left, position 202 still is. *)
Definition ringLeftover : HashRing Z :=
  MkHashRing [202] (table [(202, 2)]) (members []) ∅ false 2.

(** After [AddNodes(3)] on [ringLeftover]: node 3 is the only member,
    next to the position left over from node 2. *)
Definition ringLeftover3 : HashRing Z :=
  MkHashRing [202; 300; 301] (table [(202, 2); (300, 3); (301, 3)])
    (members [3]) ∅ false 2.

(** An empty ring. *)
Definition ringCleared : HashRing Z :=
  MkHashRing [] (table []) (members []) ∅ false 2.

(** Node 2 placed on an empty ring. *)
Definition ring2fresh : HashRing Z :=
  MkHashRing [100; 201] (table [(100, 2); (201, 2)]) (members [2]) ∅ false 2.

(** A weighted ring as [New] makes it, with weight 3 for node 1. *)
Definition ringWeighted : HashRing Z := New 2 {[1 := 3]} true.

End Collide.

(** A hash algorithm that derives nothing for replica 0 of a node and the
    single position [100 n + i] for every other replica [i]. *)
Module Gap.

Definition positions (n : Z) (i : Z) : list Z :=
  if decide (i = 0) then [] else [100 * n + i].

Definition env : Collaborators Z :=
  MkCollaborators 0 Collide.format positions Collide.hashKey
    (λ _ _ reps _, reps).

Definition ring0 : HashRing Z := New 2 ∅ false.

(** After [AddNodes(1)]. *)
Definition ring1 : HashRing Z :=
  MkHashRing [] ∅ (Collide.members [1]) ∅ false 2.

End Gap.

(** A formatter that only renders the last decimal digit of the node, so
    that nodes 2 and 12 have the same labels, and with them the same
    positions [100 (n mod 10) + i]. *)
Module Alias.

Definition format (n : Z) (i : Z) : string :=
  pretty (n mod 10) +:+ "-" +:+ pretty i.

Definition positions (n : Z) (i : Z) : list Z :=
  [100 * (n mod 10) + i].

Definition env : Collaborators Z :=
  MkCollaborators 0 format positions Collide.hashKey (λ _ _ reps _, reps).

Definition ring0 : HashRing Z := New 2 ∅ false.


End Alias.

(** * The remaining functions of [hashring.go]

    [All] and [getAllNodes] return [maps.Keys(c.allNodes)], the members
    in the iteration order that the operations above take as [ks];
    [getPrimaryNode] and [getNodeRepetitions] are defined with the
    operations that call them. *)

Section hashring_rest.

Context {Node : Type} `{Countable Node} {env : Collaborators Node}.

(** [getMaxHashKey]: the last element of [sortedKeys], when there is
    one.  The index is in range by the guard. *)
Definition getMaxHashKey (c : HashRing Node) : Z * bool :=
  if (length (sortedKeys c) =? 0)%nat then (0, false)
  else (sortedKeys c !!! (length (sortedKeys c) - 1)%nat, true).

(** [updateLocator] hands its nodes to [SetNodes]. *)
Definition updateLocator (ks : list Node) (fuel : nat) (c : HashRing Node)
    (nodes : list Node) : option (HashRing Node) :=
  SetNodes ks fuel c nodes.



End hashring_rest.

(** More concrete rings, on the hash algorithm of [Collide]. *)
Module More.

(** After [AddNodes(3)] on [Collide.ring1]. *)
Definition ring13 : HashRing Z :=
  MkHashRing [100; 101; 300; 301]
    (Collide.table [(100, 1); (101, 1); (300, 3); (301, 3)])
    (Collide.members [1; 3]) ∅ false 2.

(** After [AddNodes(3)] on [Collide.ring12]. *)
Definition ring123 : HashRing Z :=
  MkHashRing [100; 101; 201; 202; 300; 301]
    (Collide.table [(100, 1); (101, 1); (201, 2); (202, 2); (300, 3); (301, 3)])
    (Collide.members [1; 2; 3]) ∅ false 2.

(** After [SetNodes(1)] on the weighted ring [Collide.ringWeighted]; the
    target count of [Collide.env] is the replica count. *)
Definition ringWeighted1 : HashRing Z :=
  MkHashRing [100; 101] (Collide.table [(100, 1); (101, 1)])
    (Collide.members [1]) {[1 := 3]} true 2.

End More.

(** One call on a concrete ring, with the iteration order and the fuel
    given: both premises of [step_run] hold by computation. *)
Ltac run_step ks fuel :=
  apply (step_run _ _ _ ks fuel); [vm_compute; reflexivity | vm_compute; reflexivity].

(** The iteration orders of a concrete member set of at most two nodes. *)
Ltac order_cases Hks :=
  vm_compute in Hks;
  first [ apply Permutation_nil_r in Hks
        | apply Permutation_singleton_r in Hks
        | symmetry in Hks; apply Permutation_length_2_inv in Hks as [Hks|Hks] ];
  subst.

(** * Properties *)

(** ** Binary search *)

Section binary_search.

Variable x : list Z.
Variable target : Z.
Variable cmp : Z → Z → Z.

(** The comparison is negative on a prefix of the slice only, which is
    what the search takes for granted. *)
Hypothesis cmp_prefix :
  ∀ h k : nat, (h ≤ k)%nat → (k < length x)%nat →
    cmp (x !!! k) target < 0 → cmp (x !!! h) target < 0.

Lemma bsearch_loop_spec fuel i j :
  (i ≤ j)%nat → (j ≤ length x)%nat → (j - i ≤ fuel)%nat →
  (∀ k, (k < i)%nat → cmp (x !!! k) target < 0) →
  (∀ k, (j ≤ k)%nat → (k < length x)%nat → ¬ cmp (x !!! k) target < 0) →
  let r := bsearch_loop cmp x target fuel i j in
  (i ≤ r ≤ j)%nat ∧
  (∀ k, (k < r)%nat → cmp (x !!! k) target < 0) ∧
  (∀ k, (r ≤ k)%nat → (k < length x)%nat → ¬ cmp (x !!! k) target < 0).
Proof.
  revert i j. induction fuel as [|fuel IH]; intros i j Hij Hj Hfuel Hlo Hhi;
    cbn [bsearch_loop].
  - assert (i = j) as -> by lia. eauto with lia.
  - destruct (Nat.ltb_spec i j) as [Hlt|Hge].
    + assert (Hh : (i ≤ (i + j) / 2 ∧ (i + j) / 2 < j)%nat).
      { split.
        - apply Nat.div_le_lower_bound; lia.
        - apply Nat.Div0.div_lt_upper_bound; lia. }
      generalize dependent ((i + j) / 2)%nat. intros h Hh.
      destruct (Z.ltb_spec (cmp (x !!! h) target) 0) as [Hneg|Hnonneg].
      * destruct (IH (h + 1)%nat j) as (Hr & Hp & Hq); [lia | lia | lia | | done |].
        { intros k Hk. apply (cmp_prefix k h); [lia | lia | done]. }
        split; [lia | by split].
      * destruct (IH i h) as (Hr & Hp & Hq); [lia | lia | lia | done | |].
        { intros k Hk Hkn Hneg.
          pose proof (cmp_prefix h k Hk Hkn Hneg). lia. }
        split; [lia | by split].
    + assert (i = j) as -> by lia. eauto with lia.
Qed.

Lemma BinarySearchFunc_spec :
  let '(i, found) := BinarySearchFunc x target cmp in
  (i ≤ length x)%nat ∧
  (∀ k, (k < i)%nat → cmp (x !!! k) target < 0) ∧
  (∀ k, (i ≤ k)%nat → (k < length x)%nat → ¬ cmp (x !!! k) target < 0) ∧
  found = (i <? length x)%nat && (cmp (x !!! i) target =? 0).
Proof.
  unfold BinarySearchFunc.
  destruct (bsearch_loop_spec (length x) 0 (length x)) as (Hr & Hp & Hq);
    [lia | lia | lia | intros; lia | intros; lia |].
  split; [lia | by split_and!].
Qed.

End binary_search.

Lemma StronglySorted_lookup_le (x : list Z) (h k : nat) (a b : Z) :
  StronglySorted Z.le x → (h ≤ k)%nat →
  x !! h = Some a → x !! k = Some b → a ≤ b.
Proof.
  intros Hs. revert h k a b.
  induction Hs as [|y l Hs IH Hall]; intros h k a b Hhk Ha Hb.
  - by rewrite lookup_nil in Ha.
  - rewrite Forall_forall in Hall.
    destruct h as [|h], k as [|k]; simplify_eq/=; try lia.
    + apply Hall, list_elem_of_lookup. eauto.
    + apply (IH h k); [lia | done | done].
Qed.

(** On an ascending slice [tailSearch]'s comparison gives the index of
    the first element that is at least the key, and reports it found
    exactly when there is one. *)
Lemma tailSearch_sorted (x : list Z) (key : Z) :
  StronglySorted Z.le x →
  ∃ i : nat,
    BinarySearchFunc x key tailCmp = (i, bool_decide (i < length x)%nat) ∧
    (i ≤ length x)%nat ∧
    (∀ (k : nat) v, (k < i)%nat → x !! k = Some v → v < key) ∧
    (∀ (k : nat) v, (i ≤ k)%nat → x !! k = Some v → key ≤ v).
Proof.
  intros Hs.
  assert (Hcmp : ∀ v, tailCmp v key < 0 ↔ v < key).
  { intros v. unfold tailCmp. destruct (Z.leb_spec key v); lia. }
  assert (Hprefix : ∀ h k : nat, (h ≤ k)%nat → (k < length x)%nat →
            tailCmp (x !!! k) key < 0 → tailCmp (x !!! h) key < 0).
  { intros h k Hhk Hk. rewrite !Hcmp. intros Hlt.
    destruct (lookup_lt_is_Some_2 x k Hk) as [b Hb].
    destruct (lookup_lt_is_Some_2 x h ltac:(lia)) as [a Ha].
    rewrite (list_lookup_total_correct _ _ _ Hb) in Hlt.
    rewrite (list_lookup_total_correct _ _ _ Ha).
    pose proof (StronglySorted_lookup_le x h k a b Hs Hhk Ha Hb). lia. }
  pose proof (BinarySearchFunc_spec x key tailCmp Hprefix) as Hspec.
  destruct (BinarySearchFunc x key tailCmp) as [i found].
  destruct Hspec as (Hi & Hp & Hq & Hfound).
  exists i. split_and!; [| done | |].
  - f_equal. subst found. case_bool_decide as Hlt.
    + apply Nat.ltb_lt in Hlt as Hlt'. rewrite Hlt'. simpl.
      apply Z.eqb_eq. specialize (Hq i ltac:(lia) Hlt).
      rewrite Hcmp in Hq. unfold tailCmp. destruct (Z.leb_spec key (x !!! i)); lia.
    + assert ((i <? length x)%nat = false) as -> by (apply Nat.ltb_ge; lia).
      done.
  - intros k v Hk Hv. apply Hcmp.
    rewrite <-(list_lookup_total_correct _ _ _ Hv). by apply Hp.
  - intros k v Hk Hv. apply lookup_lt_Some in Hv as Hlen.
    specialize (Hq k Hk Hlen). rewrite Hcmp in Hq.
    rewrite (list_lookup_total_correct _ _ _ Hv) in Hq. lia.
Qed.

(** ** The sorted index *)

Section sorted_index.

Context {Node : Type} `{Countable Node} {env : Collaborators Node}.
Implicit Types (c : HashRing Node) (o : Op Node) (p q h : Z).

Lemma wellSorted_New reps (weights : gmap Node Z) weighted :
  wellSorted (New reps weights weighted).
Proof. unfold wellSorted. simpl. by rewrite map_to_list_empty. Qed.

Lemma wellSorted_RemoveAllNodes c : wellSorted (RemoveAllNodes c).
Proof. unfold wellSorted. simpl. by rewrite map_to_list_empty. Qed.

Lemma wellSorted_updateSortedNodes c : wellSorted (updateSortedNodes c).
Proof. reflexivity. Qed.

Lemma addNoWeightNodes_wellSorted fuel c nodes c' :
  addNoWeightNodes fuel c nodes = Some c' → wellSorted c'.
Proof.
  unfold addNoWeightNodes. intros Hrun.
  apply fmap_Some in Hrun as (c1 & _ & ->). apply wellSorted_updateSortedNodes.
Qed.

Lemma removeNoWeightNodes_wellSorted fuel c nodes c' :
  removeNoWeightNodes fuel c nodes = Some c' → wellSorted c'.
Proof.
  unfold removeNoWeightNodes. intros Hrun.
  apply bind_Some in Hrun as ([m members] & _ & Hret).
  injection Hret as <-. apply wellSorted_updateSortedNodes.
Qed.

Lemma setNoWeightNodes_wellSorted ks fuel c nodes c' :
  setNoWeightNodes ks fuel c nodes = Some c' → wellSorted c'.
Proof.
  unfold setNoWeightNodes. intros Hrun.
  apply bind_Some in Hrun as (c1 & _ & Hadd).
  by eapply addNoWeightNodes_wellSorted.
Qed.

Lemma setWeightNodes_wellSorted fuel c nodes c' :
  setWeightNodes fuel c nodes = Some c' → wellSorted c'.
Proof.
  unfold setWeightNodes. intros Hrun.
  apply fmap_Some in Hrun as (c1 & _ & ->). apply wellSorted_updateSortedNodes.
Qed.

Lemma runOp_wellSorted ks fuel c o c' :
  runOp ks fuel c o = Some c' → wellSorted c'.
Proof.
  destruct o as [nodes|nodes|nodes|]; simpl;
    unfold AddNodes, SetNodes, RemoveNodes, addWeightNodes, removeWeightNodes;
    try destruct (isWeighted c);
    eauto using addNoWeightNodes_wellSorted, removeNoWeightNodes_wellSorted,
      setNoWeightNodes_wellSorted, setWeightNodes_wellSorted.
  all: intros [= <-]; apply wellSorted_RemoveAllNodes.
Qed.

(** Every membership operation leaves [sortedKeys] equal to the sorted
    keys of [nodeByKey]. *)
Lemma reachable_wellSorted c : reachable c → wellSorted c.
Proof.
  induction 1 as [reps weights weighted|c o c' _ _ [ks fuel _ Hrun]].
  - apply wellSorted_New.
  - by eapply runOp_wellSorted.
Qed.

Lemma wellSorted_Permutation c :
  wellSorted c → sortedKeys c ≡ₚ (map_to_list (nodeByKey c)).*1.
Proof. intros ->. apply merge_sort_Permutation. Qed.

Lemma wellSorted_StronglySorted c :
  wellSorted c → StronglySorted Z.le (sortedKeys c).
Proof. intros ->. apply (StronglySorted_merge_sort _). Qed.

Lemma wellSorted_NoDup c : wellSorted c → NoDup (sortedKeys c).
Proof.
  intros Hc. rewrite (wellSorted_Permutation c Hc).
  apply NoDup_fst_map_to_list.
Qed.

Lemma wellSorted_stored c p : wellSorted c → p ∈ sortedKeys c ↔ stored c p.
Proof.
  intros Hc. rewrite (wellSorted_Permutation c Hc). unfold stored.
  rewrite list_elem_of_fmap. split.
  - intros ([q n] & -> & Hin). apply elem_of_map_to_list in Hin. eauto.
  - intros [n Hn]. exists (p, n). split; [done|]. by apply elem_of_map_to_list.
Qed.

Lemma wellSorted_length c :
  wellSorted c → length (sortedKeys c) = size (nodeByKey c).
Proof.
  intros Hc. rewrite (wellSorted_Permutation c Hc).
  by rewrite length_fmap, length_map_to_list.
Qed.

Lemma wellSorted_index c (k : nat) p :
  wellSorted c → sortedKeys c !! k = Some p →
  ∃ node, nodeByKey c !! p = Some node ∧ getNodeByHashKeyIndex c k = Some node.
Proof.
  intros Hc Hk.
  assert (stored c p) as [node Hnode].
  { apply wellSorted_stored; [done|]. apply list_elem_of_lookup. eauto. }
  exists node. split; [done|].
  unfold getNodeByHashKeyIndex. rewrite Hk. simpl. by rewrite Hnode.
Qed.

(** Where [tailSearch] lands on a well-sorted ring with at least one
    position: on the smallest stored position that is at least the key,
    or past the end when every stored position is smaller, and then index
    0, which holds the smallest stored position, takes over. *)
Lemma tailSearch_lands c h :
  wellSorted c → nodeByKey c ≠ ∅ →
  ∃ (i : nat) p,
    startIndex c h = i ∧
    sortedKeys c !! i = Some p ∧
    (leastStoredFrom c h p ∨
     ((∀ q, stored c q → q < h) ∧ leastStored c p ∧ i = 0%nat)).
Proof.
  intros Hc Hne.
  pose proof (wellSorted_StronglySorted c Hc) as Hs.
  assert (Hlen : (0 < length (sortedKeys c))%nat).
  { rewrite (wellSorted_length c Hc).
    apply map_size_non_empty_iff in Hne. lia. }
  destruct (tailSearch_sorted (sortedKeys c) h Hs) as (i & Hi & Hle & Hlo & Hhi).
  unfold startIndex, tailSearch. rewrite Hi. case_bool_decide as Hlt.
  - destruct (lookup_lt_is_Some_2 _ _ Hlt) as [p Hp].
    exists i, p. split_and!; [done | done |]. left. split_and!.
    + apply wellSorted_stored; [done|]. apply list_elem_of_lookup. eauto.
    + by apply (Hhi i).
    + intros q Hq Hhq. apply wellSorted_stored in Hq; [|done].
      apply list_elem_of_lookup in Hq as [k Hk].
      destruct (decide (k < i)%nat) as [Hki|Hki].
      * specialize (Hlo k q Hki Hk). lia.
      * apply (StronglySorted_lookup_le (sortedKeys c) i k); [done | lia | done | done].
  - destruct (lookup_lt_is_Some_2 _ _ Hlen) as [p Hp].
    exists 0%nat, p. split_and!; [done | done |]. right.
    split; [|split; [split|done]].
    + intros q Hq. apply wellSorted_stored in Hq; [|done].
      apply list_elem_of_lookup in Hq as [k Hk].
      apply (Hlo k); [|done]. apply lookup_lt_Some in Hk. lia.
    + apply wellSorted_stored; [done|]. apply list_elem_of_lookup. eauto.
    + intros q Hq. apply wellSorted_stored in Hq; [|done].
      apply list_elem_of_lookup in Hq as [k Hk].
      apply (StronglySorted_lookup_le (sortedKeys c) 0 k); [done | lia | done | done].
Qed.

Lemma leastStoredFrom_unique c h p q :
  leastStoredFrom c h p → leastStoredFrom c h q → p = q.
Proof.
  intros (Hp & Hhp & Hpmin) (Hq & Hhq & Hqmin).
  specialize (Hpmin q Hq Hhq). specialize (Hqmin p Hp Hhp). lia.
Qed.

Lemma leastStored_unique c p q : leastStored c p → leastStored c q → p = q.
Proof.
  intros (Hp & Hpmin) (Hq & Hqmin).
  specialize (Hpmin q Hq). specialize (Hqmin p Hp). lia.
Qed.

Lemma Get_nonempty c name :
  nodeByKey c ≠ ∅ → wellSorted c →
  Get c name = getNodeByHashKey c (getHashKey name) ∧
  (length (sortedKeys c) =? 0)%nat = false.
Proof.
  intros Hne Hc. unfold Get, getPrimaryNode.
  apply map_size_non_empty_iff in Hne.
  rewrite (wellSorted_length c Hc).
  by destruct (Nat.eqb_spec (size (nodeByKey c)) 0).
Qed.

End sorted_index.

(** ** Fuel

    Fuel only bounds the number of turns of the two placement loops: a
    run that returns with some fuel returns the same ring with any larger
    amount. *)

Section fuel.

Context {Node : Type} `{Countable Node} {env : Collaborators Node}.
Implicit Types (c : HashRing Node) (node : Node) (nodes ks : list Node)
  (m : gmap Z Node) (fuel : nat).

Lemma addLoop_fuel fuel fuel' node i reps m m' :
  (fuel ≤ fuel')%nat →
  addLoop fuel node i reps m = Some m' → addLoop fuel' node i reps m = Some m'.
Proof.
  revert fuel' i reps m.
  induction fuel as [|fuel IH]; intros fuel' i reps m Hle Hrun; [done|].
  destruct fuel' as [|fuel']; [lia|]. simpl in *.
  destruct (i <? reps); [|done].
  destruct (length (getIterateHashKeyForNode node i) =? 0)%nat; [done|].
  destruct (placePositions node i 0 (getIterateHashKeyForNode node i) reps m).
  apply IH; [lia | done].
Qed.

Lemma removeLoop_fuel fuel fuel' node i reps m res :
  (fuel ≤ fuel')%nat →
  removeLoop fuel node i reps m = Some res →
  removeLoop fuel' node i reps m = Some res.
Proof.
  revert fuel' i reps m.
  induction fuel as [|fuel IH]; intros fuel' i reps m Hle Hrun; [done|].
  destruct fuel' as [|fuel']; [lia|]. simpl in *.
  destruct (i <? reps); [|done].
  destruct (length (getIterateHashKeyForNode node i) =? 0)%nat.
  - apply IH; [lia | done].
  - destruct (unplacePositions node i 0 (getIterateHashKeyForNode node i) reps m).
    apply IH; [lia | done].
Qed.

Lemma addNodeWithoutSort_fuel fuel fuel' c node reps c' :
  (fuel ≤ fuel')%nat →
  addNodeWithoutSort fuel c node reps = Some c' →
  addNodeWithoutSort fuel' c node reps = Some c'.
Proof.
  unfold addNodeWithoutSort. intros Hle Hrun.
  apply bind_Some in Hrun as (m & Hloop & Hret).
  by rewrite (addLoop_fuel fuel fuel' _ _ _ _ m Hle Hloop).
Qed.

Lemma addEach_fuel fuel fuel' c nodes c' :
  (fuel ≤ fuel')%nat →
  addEach fuel c nodes = Some c' → addEach fuel' c nodes = Some c'.
Proof.
  intros Hle. revert c.
  induction nodes as [|node rest IH]; intros c Hrun; simpl in *; [done|].
  apply bind_Some in Hrun as (c1 & Hadd & Hrest).
  rewrite (addNodeWithoutSort_fuel fuel fuel' _ _ _ c1 Hle Hadd). simpl. auto.
Qed.

Lemma addEachWeighted_fuel fuel fuel' c totalWeight nodeCount nodes c' :
  (fuel ≤ fuel')%nat →
  addEachWeighted fuel c totalWeight nodeCount nodes = Some c' →
  addEachWeighted fuel' c totalWeight nodeCount nodes = Some c'.
Proof.
  intros Hle. revert c.
  induction nodes as [|node rest IH]; intros c Hrun; simpl in *; [done|].
  apply bind_Some in Hrun as (c1 & Hadd & Hrest).
  rewrite (addNodeWithoutSort_fuel fuel fuel' _ _ _ c1 Hle Hadd). simpl. auto.
Qed.

Lemma removeEach_fuel fuel fuel' nodes reps m (members : gset Node) res :
  (fuel ≤ fuel')%nat →
  removeEach fuel nodes reps m members = Some res →
  removeEach fuel' nodes reps m members = Some res.
Proof.
  intros Hle. revert reps m members.
  induction nodes as [|node rest IH]; intros reps m members Hrun; simpl in *;
    [done|].
  apply bind_Some in Hrun as ([reps1 m1] & Hloop & Hrest).
  rewrite (removeLoop_fuel fuel fuel' _ _ _ _ _ Hle Hloop). simpl. auto.
Qed.

Lemma addNoWeightNodes_fuel fuel fuel' c nodes c' :
  (fuel ≤ fuel')%nat →
  addNoWeightNodes fuel c nodes = Some c' →
  addNoWeightNodes fuel' c nodes = Some c'.
Proof.
  unfold addNoWeightNodes. intros Hle Hrun.
  apply fmap_Some in Hrun as (c1 & Hadd & ->).
  by rewrite (addEach_fuel fuel fuel' _ _ c1 Hle Hadd).
Qed.

Lemma removeNoWeightNodes_fuel fuel fuel' c nodes c' :
  (fuel ≤ fuel')%nat →
  removeNoWeightNodes fuel c nodes = Some c' →
  removeNoWeightNodes fuel' c nodes = Some c'.
Proof.
  unfold removeNoWeightNodes. intros Hle Hrun.
  apply bind_Some in Hrun as (res & Hrem & Hret).
  by rewrite (removeEach_fuel fuel fuel' _ _ _ _ res Hle Hrem).
Qed.

Lemma setWeightNodes_fuel fuel fuel' c nodes c' :
  (fuel ≤ fuel')%nat →
  setWeightNodes fuel c nodes = Some c' → setWeightNodes fuel' c nodes = Some c'.
Proof.
  unfold setWeightNodes. intros Hle Hrun.
  apply fmap_Some in Hrun as (c1 & Hadd & ->).
  by rewrite (addEachWeighted_fuel fuel fuel' _ _ _ _ c1 Hle Hadd).
Qed.

Lemma setNoWeightNodes_fuel ks fuel fuel' c nodes c' :
  (fuel ≤ fuel')%nat →
  setNoWeightNodes ks fuel c nodes = Some c' →
  setNoWeightNodes ks fuel' c nodes = Some c'.
Proof.
  unfold setNoWeightNodes. intros Hle Hrun.
  apply bind_Some in Hrun as (c1 & Hfirst & Hadd).
  apply (addNoWeightNodes_fuel fuel fuel') in Hadd; [|done].
  destruct (takesFullClear ks nodes).
  - injection Hfirst as <-. done.
  - by rewrite (removeNoWeightNodes_fuel fuel fuel' _ _ c1 Hle Hfirst).
Qed.

Lemma runOp_fuel ks fuel fuel' c (o : Op Node) c' :
  (fuel ≤ fuel')%nat →
  runOp ks fuel c o = Some c' → runOp ks fuel' c o = Some c'.
Proof.
  intros Hle.
  destruct o as [nodes|nodes|nodes|]; simpl; [| | |done];
    unfold AddNodes, SetNodes, RemoveNodes, addWeightNodes, removeWeightNodes;
    destruct (isWeighted c);
    eauto using addNoWeightNodes_fuel, removeNoWeightNodes_fuel,
      setNoWeightNodes_fuel, setWeightNodes_fuel.
Qed.

End fuel.

(** ** Resolution *)

Section resolution.

Context {Node : Type} `{Countable Node} {env : Collaborators Node}.
Implicit Types (c : HashRing Node) (p q : Z) (node : Node).

(** C7. Resolution rule.  On a ring reached through the membership
    operations that stores at least one position, for a key hashing to
    position [h]: [Get] returns the owner of [h] when [h] is a stored
    position; otherwise the owner of the smallest stored position that is
    at least [h]; and when every stored position is smaller than [h], the
    owner of the smallest stored position, which is the one at index 0 of
    [sortedKeys].  In each case the found flag is true. *)
Theorem C7_resolution_rule c (name : string) :
  reachable c → nodeByKey c ≠ ∅ →
  (∀ node, nodeByKey c !! getHashKey name = Some node →
     Get c name = Some (node, true)) ∧
  (∀ p node, nodeByKey c !! getHashKey name = None →
     leastStoredFrom c (getHashKey name) p → nodeByKey c !! p = Some node →
     Get c name = Some (node, true)) ∧
  (∀ p node, (∀ q, stored c q → q < getHashKey name) →
     leastStored c p → nodeByKey c !! p = Some node →
     sortedKeys c !! 0%nat = Some p ∧ Get c name = Some (node, true)).
Proof.
  intros Hreach Hne. apply reachable_wellSorted in Hreach as Hc.
  destruct (Get_nonempty c name Hne Hc) as [-> Hlen].
  set (h := getHashKey name).
  destruct (tailSearch_lands c h Hc Hne) as (i & p' & Hi & Hp' & Hcase).
  destruct (wellSorted_index c i p' Hc Hp') as (node' & Hnode' & Hidx).
  assert (Hmiss : nodeByKey c !! h = None →
            getNodeByHashKey c h = Some (node', true)).
  { intros Hnone. unfold getNodeByHashKey. rewrite Hlen, Hnone.
    unfold startIndex in Hi.
    destruct (tailSearch c h) as [firstKey found]. rewrite Hi, Hidx. done. }
  split_and!.
  - intros node Hnode. unfold getNodeByHashKey. by rewrite Hlen, Hnode.
  - intros p node Hnone Hp Hnode. rewrite (Hmiss Hnone).
    destruct Hcase as [Hp2|(Hall & _ & _)].
    + rewrite (leastStoredFrom_unique c h p p' Hp Hp2) in Hnode. congruence.
    + destruct Hp as (Hst & Hhp & _). specialize (Hall p Hst). lia.
  - intros p node Hall Hp Hnode.
    assert (Hnone : nodeByKey c !! h = None).
    { destruct (nodeByKey c !! h) eqn:Hh; [|done].
      assert (h < h); [|lia]. apply Hall. by eexists. }
    rewrite (Hmiss Hnone).
    destruct Hcase as [(Hst & Hhp & _)|(_ & Hp2 & ->)].
    + specialize (Hall p' Hst). lia.
    + rewrite (leastStored_unique c p p' Hp Hp2) in Hnode |- *.
      split; [done | congruence].
Qed.

(** A ring reached through the membership operations that stores a
    position resolves every key, and to the owner of a stored position. *)
Lemma Get_total c (name : string) :
  reachable c → nodeByKey c ≠ ∅ →
  ∃ p node, nodeByKey c !! p = Some node ∧ Get c name = Some (node, true).
Proof.
  intros Hreach Hne. apply reachable_wellSorted in Hreach as Hc.
  destruct (Get_nonempty c name Hne Hc) as [-> Hlen].
  unfold getNodeByHashKey. rewrite Hlen.
  destruct (nodeByKey c !! getHashKey name) as [node|] eqn:Hh; [by eauto|].
  destruct (tailSearch_lands c (getHashKey name) Hc Hne) as (i & p & Hi & Hp & _).
  destruct (wellSorted_index c i p Hc Hp) as (node & Hnode & Hidx).
  unfold startIndex in Hi.
  destruct (tailSearch c (getHashKey name)) as [firstKey found].
  rewrite Hi, Hidx. simpl. eauto.
Qed.

(** C6 (amended).  [RemoveAllNodes] resets three of the four state
    structures, whatever the mode: the position index, the position table
    and the member set become empty.  The weight table is kept as it is,
    and so are the mode flag and the replica count. *)
Theorem C6_RemoveAllNodes_keeps_weights c :
  sortedKeys (RemoveAllNodes c) = [] ∧
  nodeByKey (RemoveAllNodes c) = ∅ ∧
  allNodes (RemoveAllNodes c) = ∅ ∧
  weightByNode (RemoveAllNodes c) = weightByNode c ∧
  isWeighted (RemoveAllNodes c) = isWeighted c ∧
  numReps (RemoveAllNodes c) = numReps c.
Proof. done. Qed.

End resolution.

(** ** Membership *)

Section membership.

Context {Node : Type} `{Countable Node} {env : Collaborators Node}.
Implicit Types (c : HashRing Node) (a b k v node : Node) (nodes ks : list Node).

Lemma isSameNode_refl a : isSameNode a a = true.
Proof. unfold isSameNode. by apply bool_decide_eq_true. Qed.

Lemma isSameNode_sym a b : isSameNode a b = true → isSameNode b a = true.
Proof. unfold isSameNode. rewrite !bool_decide_eq_true. congruence. Qed.

Lemma isSameNode_trans a b k :
  isSameNode a b = true → isSameNode b k = true → isSameNode a k = true.
Proof. unfold isSameNode. rewrite !bool_decide_eq_true. congruence. Qed.

Lemma existsb_isSameNode k nodes :
  Is_true (existsb (λ v, isSameNode k v) nodes) ↔
  ∃ v, v ∈ nodes ∧ isSameNode k v = true.
Proof.
  rewrite Is_true_true, existsb_exists. split.
  - intros (v & Hin & Hv). exists v. by rewrite list_elem_of_In.
  - intros (v & Hin & Hv). exists v. by rewrite <-list_elem_of_In.
Qed.

Lemma elem_of_nodesToBeRemoved k ks nodes :
  k ∈ nodesToBeRemoved ks nodes ↔
  k ∈ ks ∧ ¬ ∃ v, v ∈ nodes ∧ isSameNode k v = true.
Proof.
  unfold nodesToBeRemoved. rewrite list_elem_of_filter, existsb_isSameNode. tauto.
Qed.

Lemma elem_of_nodesToBeAdded k (members : gset Node) nodes :
  k ∈ nodesToBeAdded members nodes ↔
  k ∈ nodes ∧ ¬ ∃ v, v ∈ members ∧ isSameNode k v = true.
Proof.
  unfold nodesToBeAdded. rewrite list_elem_of_filter, existsb_isSameNode.
  setoid_rewrite elem_of_elements. tauto.
Qed.

Lemma addNodeWithoutSort_allNodes fuel c node reps c' :
  addNodeWithoutSort fuel c node reps = Some c' →
  allNodes c' = {[node]} ∪ allNodes c ∧ sameSettings c c'.
Proof.
  unfold addNodeWithoutSort. intros Hrun.
  apply bind_Some in Hrun as (m & _ & [= <-]). done.
Qed.

Lemma addEach_allNodes fuel c nodes c' :
  addEach fuel c nodes = Some c' →
  allNodes c' = allNodes c ∪ list_to_set nodes ∧ sameSettings c c'.
Proof.
  revert c. induction nodes as [|node rest IH]; intros c Hrun; simpl in Hrun.
  - injection Hrun as <-. split; [set_solver | done].
  - apply bind_Some in Hrun as (c1 & Hadd & Hrest).
    apply addNodeWithoutSort_allNodes in Hadd as (Hm1 & Hw1 & Hf1 & Hn1).
    apply IH in Hrest as (Hm & Hw & Hf & Hn).
    split; [set_solver | unfold sameSettings; split_and!; congruence].
Qed.

Lemma addNoWeightNodes_allNodes fuel c nodes c' :
  addNoWeightNodes fuel c nodes = Some c' →
  allNodes c' = allNodes c ∪ list_to_set nodes ∧ sameSettings c c'.
Proof.
  unfold addNoWeightNodes. intros Hrun.
  apply fmap_Some in Hrun as (c1 & Hadd & ->).
  by apply addEach_allNodes in Hadd.
Qed.

Lemma removeEach_members fuel nodes reps (m : gmap Z Node) (members : gset Node)
    m' members' :
  removeEach fuel nodes reps m members = Some (m', members') →
  members' = members ∖ list_to_set nodes.
Proof.
  revert reps m members.
  induction nodes as [|node rest IH]; intros reps m members Hrun; simpl in Hrun.
  - injection Hrun as _ <-. set_solver.
  - apply bind_Some in Hrun as ([reps1 m1] & _ & Hrest).
    apply IH in Hrest as ->. set_solver.
Qed.

Lemma removeNoWeightNodes_allNodes fuel c nodes c' :
  removeNoWeightNodes fuel c nodes = Some c' →
  allNodes c' = allNodes c ∖ list_to_set nodes ∧ sameSettings c c'.
Proof.
  unfold removeNoWeightNodes. intros Hrun.
  apply bind_Some in Hrun as ([m members] & Hrem & [= <-]).
  apply removeEach_members in Hrem as ->. done.
Qed.

Lemma addEachWeighted_allNodes fuel c totalWeight nodeCount nodes c' :
  addEachWeighted fuel c totalWeight nodeCount nodes = Some c' →
  allNodes c' = allNodes c ∪ list_to_set nodes ∧ sameSettings c c'.
Proof.
  revert c. induction nodes as [|node rest IH]; intros c Hrun; simpl in Hrun.
  - injection Hrun as <-. split; [set_solver | done].
  - apply bind_Some in Hrun as (c1 & Hadd & Hrest).
    apply addNodeWithoutSort_allNodes in Hadd as (Hm1 & Hw1 & Hf1 & Hn1).
    apply IH in Hrest as (Hm & Hw & Hf & Hn).
    split; [set_solver | unfold sameSettings; split_and!; congruence].
Qed.

Lemma setWeightNodes_allNodes fuel c nodes c' :
  setWeightNodes fuel c nodes = Some c' →
  allNodes c' = list_to_set nodes ∧ sameSettings c c'.
Proof.
  unfold setWeightNodes. intros Hrun.
  apply fmap_Some in Hrun as (c1 & Hadd & ->).
  apply addEachWeighted_allNodes in Hadd as (Hm & Hs). simpl in *.
  split; [set_solver | done].
Qed.

(** The members after [setNoWeightNodes]: all the given nodes when the
    full clear was taken; otherwise the members that match a given node,
    and the given nodes that match no member. *)
Lemma setNoWeightNodes_allNodes ks fuel c nodes c' :
  ks ≡ₚ elements (allNodes c) →
  setNoWeightNodes ks fuel c nodes = Some c' →
  sameSettings c c' ∧
  ∀ k, k ∈ allNodes c' ↔
    if takesFullClear ks nodes then k ∈ nodes
    else (k ∈ allNodes c ∧ ∃ v, v ∈ nodes ∧ isSameNode k v = true) ∨
         (k ∈ nodes ∧ ¬ ∃ v, v ∈ allNodes c ∧ isSameNode k v = true).
Proof.
  intros Hks. unfold setNoWeightNodes. intros Hrun.
  apply bind_Some in Hrun as (c1 & Hfirst & Hadd).
  apply addNoWeightNodes_allNodes in Hadd as (Hm & Hs).
  destruct (takesFullClear ks nodes).
  - injection Hfirst as <-. split; [done|]. intros k. rewrite Hm. simpl.
    rewrite elem_of_union, elem_of_list_to_set, elem_of_nodesToBeAdded.
    set_solver.
  - apply removeNoWeightNodes_allNodes in Hfirst as (Hm1 & Hs1).
    split. { destruct Hs as (?&?&?), Hs1 as (?&?&?). unfold sameSettings.
             split_and!; congruence. }
    assert (Hkept : ∀ k, k ∈ allNodes c1 ↔
              k ∈ allNodes c ∧ ∃ v, v ∈ nodes ∧ isSameNode k v = true).
    { intros k. rewrite Hm1, elem_of_difference, elem_of_list_to_set,
        elem_of_nodesToBeRemoved, Hks, elem_of_elements.
      split; [|tauto]. intros [Hk Hnot]. split; [done|].
      destruct (decide (Is_true (existsb (λ v, isSameNode k v) nodes))) as [Hex|Hex].
      - by apply existsb_isSameNode.
      - exfalso. apply Hnot. split; [done|]. by rewrite <-existsb_isSameNode. }
    intros k. rewrite Hm, elem_of_union, elem_of_list_to_set,
      elem_of_nodesToBeAdded, Hkept.
    split.
    + intros [Hk|[Hk Hnone]]; [by left|]. right. split; [done|].
      intros (v & Hv & Hsame). apply Hnone. exists v. split; [|done].
      apply Hkept. split; [done|]. exists k. split; [done|].
      by apply isSameNode_sym.
    + intros [Hk|[Hk Hnone]]; [by left|]. right. split; [done|].
      intros (v & Hv & Hsame). apply Hnone. exists v. split; [|done].
      by apply Hkept in Hv as [Hv _].
Qed.

End membership.

(** ** Formatter equality *)

Section label_identity.

Context {Node : Type} `{Countable Node} {env : Collaborators Node}.
Implicit Types (c : HashRing Node) (a b k v : Node) (nodes ks : list Node).


Lemma labelsDistinct_list_to_set nodes :
  labelsDistinctIn nodes → labelsDistinct (list_to_set nodes : gset Node).
Proof.
  intros Hd a b Ha%elem_of_list_to_set Hb%elem_of_list_to_set. by apply Hd.
Qed.





End label_identity.

(** ** Placement and removal on the position table *)

Section placement.

Context {Node : Type} `{Countable Node} {env : Collaborators Node}.
Implicit Types (c : HashRing Node) (node n k v x y : Node) (nodes ks : list Node)
  (m : gmap Z Node) (p : Z).

(** Placement never overwrites a stored position, and what it stores is
    owned by the node being placed. *)
Lemma placePositions_entries node i j positions reps m reps' m' :
  placePositions node i j positions reps m = (reps', m') →
  (∀ p n, m !! p = Some n → m' !! p = Some n) ∧
  (∀ p n, m' !! p = Some n → m !! p = Some n ∨ n = node).
Proof.
  revert j reps m.
  induction positions as [|pos rest IH]; intros j reps m Hrun; simpl in Hrun.
  - by injection Hrun as _ <-; eauto.
  - destruct (reps <? i + j); [by injection Hrun as _ <-; eauto|].
    destruct (m !! pos) as [owner|] eqn:Hpos; [by eapply IH|].
    apply IH in Hrun as [Hkeep Hnew]. split.
    + intros p n Hp. apply Hkeep. rewrite lookup_insert_ne; [done|congruence].
    + intros p n Hp. apply Hnew in Hp as [Hp| ->]; [|by right].
      apply lookup_insert_Some in Hp as [[_ <-]|[_ Hp]]; eauto.
Qed.

Lemma addLoop_entries fuel node i reps m m' :
  addLoop fuel node i reps m = Some m' →
  (∀ p n, m !! p = Some n → m' !! p = Some n) ∧
  (∀ p n, m' !! p = Some n → m !! p = Some n ∨ n = node).
Proof.
  revert i reps m.
  induction fuel as [|fuel IH]; intros i reps m Hrun; simpl in Hrun; [done|].
  destruct (i <? reps); [|by injection Hrun as <-; eauto].
  destruct (length (getIterateHashKeyForNode node i) =? 0)%nat;
    [by injection Hrun as <-; eauto|].
  destruct (placePositions node i 0 (getIterateHashKeyForNode node i) reps m)
    as [reps1 m1] eqn:Hplace.
  apply placePositions_entries in Hplace as [Hkeep1 Hnew1].
  apply IH in Hrun as [Hkeep Hnew]. split; [by eauto|].
  intros p n Hp. apply Hnew in Hp as [Hp| ->]; eauto.
Qed.

Lemma addEach_entries fuel c nodes c' :
  addEach fuel c nodes = Some c' →
  (∀ p n, nodeByKey c !! p = Some n → nodeByKey c' !! p = Some n) ∧
  (∀ p n, nodeByKey c' !! p = Some n → nodeByKey c !! p = Some n ∨ n ∈ nodes).
Proof.
  revert c. induction nodes as [|node rest IH]; intros c Hrun; simpl in Hrun.
  - by injection Hrun as <-; eauto.
  - apply bind_Some in Hrun as (c1 & Hadd & Hrest).
    unfold addNodeWithoutSort in Hadd.
    apply bind_Some in Hadd as (m1 & Hloop & [= <-]).
    apply addLoop_entries in Hloop as [Hkeep1 Hnew1].
    apply IH in Hrest as [Hkeep Hnew]. simpl in *. split; [by eauto|].
    intros p n Hp. apply Hnew in Hp as [Hp|Hin]; [|right; by constructor].
    apply Hnew1 in Hp as [Hp| ->]; [by left | right; by constructor].
Qed.

(** Removal only deletes, and only positions whose owner has the label of
    the node being removed. *)
Lemma unplacePositions_entries node i j positions reps m reps' m' :
  unplacePositions node i j positions reps m = (reps', m') →
  (∀ p n, m' !! p = Some n → m !! p = Some n) ∧
  (∀ p n, m !! p = Some n → isSameNode n node = false → m' !! p = Some n).
Proof.
  revert j reps m.
  induction positions as [|pos rest IH]; intros j reps m Hrun; simpl in Hrun.
  - by injection Hrun as _ <-; eauto.
  - destruct (reps <? i + j); [by injection Hrun as _ <-; eauto|].
    destruct (m !! pos) as [owner|] eqn:Hpos; [|by eapply IH].
    destruct (isSameNode owner node) eqn:Hsame; simpl in Hrun; [|by eapply IH].
    apply IH in Hrun as [Hsub Hkeep]. split.
    + intros p n Hp. apply Hsub in Hp.
      by apply lookup_delete_Some in Hp as [_ Hp].
    + intros p n Hp Hn. apply Hkeep; [|done].
      rewrite lookup_delete_ne; [done|]. intros <-. congruence.
Qed.

Lemma removeLoop_entries fuel node i reps m reps' m' :
  removeLoop fuel node i reps m = Some (reps', m') →
  (∀ p n, m' !! p = Some n → m !! p = Some n) ∧
  (∀ p n, m !! p = Some n → isSameNode n node = false → m' !! p = Some n).
Proof.
  revert i reps m.
  induction fuel as [|fuel IH]; intros i reps m Hrun; simpl in Hrun; [done|].
  destruct (i <? reps); [|by injection Hrun as _ <-; eauto].
  destruct (length (getIterateHashKeyForNode node i) =? 0)%nat; [by eapply IH|].
  destruct (unplacePositions node i 0 (getIterateHashKeyForNode node i) reps m)
    as [reps1 m1] eqn:Hunplace.
  apply unplacePositions_entries in Hunplace as [Hsub1 Hkeep1].
  apply IH in Hrun as [Hsub Hkeep]. split; by eauto.
Qed.

Lemma removeEach_entries fuel nodes reps m (members : gset Node) m' members' :
  removeEach fuel nodes reps m members = Some (m', members') →
  (∀ p n, m' !! p = Some n → m !! p = Some n) ∧
  (∀ p n, m !! p = Some n →
     (∀ y, y ∈ nodes → isSameNode n y = false) → m' !! p = Some n).
Proof.
  revert reps m members.
  induction nodes as [|node rest IH]; intros reps m members Hrun; simpl in Hrun.
  - by injection Hrun as <- _; eauto.
  - apply bind_Some in Hrun as ([reps1 m1] & Hloop & Hrest).
    apply removeLoop_entries in Hloop as [Hsub1 Hkeep1].
    apply IH in Hrest as [Hsub Hkeep]. split; [by eauto|].
    intros p n Hp Hn. apply Hkeep.
    + apply Hkeep1; [done|]. apply Hn. by constructor.
    + intros y Hy. apply Hn. by constructor.
Qed.

Lemma elem_of_positionsOf c node p :
  p ∈ positionsOf c node ↔ nodeByKey c !! p = Some node.
Proof.
  unfold positionsOf. rewrite elem_of_dom. split.
  - intros [n Hn]. apply map_lookup_filter_Some in Hn as [Hp Hn].
    simpl in Hn. by subst.
  - intros Hp. exists node. by apply map_lookup_filter_Some.
Qed.

(** The frame of [setNoWeightNodes] on its member-by-member path: a
    member that matches one of the given nodes stays a member and owns
    the same positions afterwards. *)
Lemma setNoWeightNodes_frame ks fuel c nodes c' x :
  ks ≡ₚ elements (allNodes c) →
  takesFullClear ks nodes = false →
  setNoWeightNodes ks fuel c nodes = Some c' →
  x ∈ allNodes c → (∃ v, v ∈ nodes ∧ isSameNode x v = true) →
  x ∈ allNodes c' ∧ positionsOf c' x = positionsOf c x.
Proof.
  intros Hks Hpath Hrun Hx Hmatch.
  pose proof (setNoWeightNodes_allNodes ks fuel c nodes c' Hks Hrun) as [_ Hm].
  rewrite Hpath in Hm. split; [apply Hm; by left|].
  unfold setNoWeightNodes in Hrun. rewrite Hpath in Hrun.
  apply bind_Some in Hrun as (c1 & Hrem & Hadd).
  pose proof (removeNoWeightNodes_allNodes _ _ _ _ Hrem) as [Hm1 _].
  unfold removeNoWeightNodes in Hrem.
  apply bind_Some in Hrem as ([m1 members1] & Hrem & [= <-]).
  apply removeEach_entries in Hrem as [Hsub Hkeep].
  unfold addNoWeightNodes in Hadd.
  apply fmap_Some in Hadd as (c2 & Hadd & ->).
  apply addEach_entries in Hadd as [Hkeep2 Hnew2]. simpl in *.
  assert (Hx1 : x ∈ allNodes c ∖ list_to_set (nodesToBeRemoved ks nodes)).
  { apply elem_of_difference. split; [done|].
    rewrite elem_of_list_to_set, elem_of_nodesToBeRemoved. tauto. }
  apply set_eq. intros p. rewrite !elem_of_positionsOf. simpl. split.
  - intros Hp. apply Hnew2 in Hp as [Hp|Hin]; [by apply Hsub|].
    apply elem_of_nodesToBeAdded in Hin as [_ Hnone].
    exfalso. apply Hnone. exists x. rewrite Hm1.
    split; [done | apply isSameNode_refl].
  - intros Hp. apply Hkeep2, Hkeep; [done|].
    intros y Hy. apply elem_of_nodesToBeRemoved in Hy as [_ Hnone].
    destruct (isSameNode x y) eqn:Hxy; [|done].
    exfalso. apply Hnone. destruct Hmatch as (v & Hv & Hxv).
    exists v. split; [done|].
    eapply isSameNode_trans; [by apply isSameNode_sym|done].
Qed.

End placement.

(** ** The replica budget *)

Section budget.

Context {Node : Type} `{Countable Node} {env : Collaborators Node}.
Implicit Types (node : Node) (m : gmap Z Node).

(** One derivation: every position it looks at is either stored or makes
    the budget grow by one, and it stops looking exactly when the replica
    index has passed the budget. *)
Lemma placePositions_budget node i positions :
  ∀ j reps m reps' m',
    i + j ≤ reps + 1 →
    placePositions node i j positions reps m = (reps', m') →
    let looked := Z.of_nat (size m') - Z.of_nat (size m) + (reps' - reps) in
    0 ≤ looked ≤ Z.of_nat (length positions) ∧
    i + j + looked ≤ reps' + 1 ∧
    (looked < Z.of_nat (length positions) → i + j + looked = reps' + 1).
Proof.
  induction positions as [|pos rest IH]; intros j reps m reps' m' Hij Hrun;
    simpl in Hrun.
  - injection Hrun as <- <-. simpl. lia.
  - destruct (Z.ltb_spec reps (i + j)) as [Hout|Hin].
    + injection Hrun as <- <-. simpl length. lia.
    + destruct (m !! pos) as [owner|] eqn:Hpos.
      * apply IH in Hrun; [|lia]. simpl length. simpl in Hrun. lia.
      * apply IH in Hrun; [|lia]. simpl length. simpl in Hrun.
        rewrite (map_size_insert_None pos node m Hpos) in Hrun. lia.
Qed.

Lemma addLoop_exit fuel node i reps m m' :
  reps ≤ i → addLoop fuel node i reps m = Some m' → m' = m.
Proof.
  intros Hle Hrun. destruct fuel as [|fuel]; [done|]. simpl in Hrun.
  destruct (Z.ltb_spec i reps); [lia|]. by injection Hrun.
Qed.

Lemma addLoop_budget_from fuel node :
  (∀ k, getIterateHashKeyForNode node k ≠ []) →
  ∀ i reps m m',
    i < reps → addLoop fuel node i reps m = Some m' →
    Z.of_nat (size m') = Z.of_nat (size m) + (reps - i) ∨
    Z.of_nat (size m') = Z.of_nat (size m) + (reps - i) + 1.
Proof.
  intros Hderive.
  induction fuel as [|fuel IH]; intros i reps m m' Hlt Hrun; [done|].
  simpl in Hrun. destruct (Z.ltb_spec i reps); [|lia].
  specialize (Hderive i).
  destruct (getIterateHashKeyForNode node i) as [|pos rest] eqn:Hpositions;
    [done|]. clear Hderive.
  cbn [length Nat.eqb] in Hrun.
  destruct (placePositions node i 0 (pos :: rest) reps m) as [reps1 m1] eqn:Hplace.
  apply placePositions_budget in Hplace; [|lia]. cbn [length] in Hplace.
  destruct Hplace as (Hlooked & Hbound & Hbreak).
  destruct (Z.ltb_spec (i + Z.of_nat (S (length rest))) reps1) as [Hmore|Hdone].
  - apply IH in Hrun; [|done]. lia.
  - apply addLoop_exit in Hrun as ->; [|done]. lia.
Qed.

(** When every derivation gives at least one position and the placement
    loop returns, the table has grown by the target count or by one more
    than the target count. *)
Lemma addLoop_budget fuel node reps m m' :
  (∀ k, getIterateHashKeyForNode node k ≠ []) →
  0 ≤ reps → addLoop fuel node 0 reps m = Some m' →
  Z.of_nat (size m') = Z.of_nat (size m) + reps ∨
  Z.of_nat (size m') = Z.of_nat (size m) + reps + 1.
Proof.
  intros Hderive Hreps Hrun.
  destruct (decide (reps = 0)) as [->|Hpos].
  - apply addLoop_exit in Hrun as ->; [|done]. lia.
  - apply (addLoop_budget_from fuel node Hderive) in Hrun; lia.
Qed.

(** With one position per derivation the growth is the target count. *)
Lemma addLoop_budget_single fuel node :
  (∀ k, length (getIterateHashKeyForNode node k) = 1%nat) →
  ∀ i reps m m',
    i ≤ reps → addLoop fuel node i reps m = Some m' →
    Z.of_nat (size m') = Z.of_nat (size m) + (reps - i).
Proof.
  intros Hderive.
  induction fuel as [|fuel IH]; intros i reps m m' Hle Hrun; [done|].
  simpl in Hrun. destruct (Z.ltb_spec i reps); [|injection Hrun as <-; lia].
  specialize (Hderive i).
  destruct (getIterateHashKeyForNode node i) as [|pos [|pos' rest]]; [done| |done].
  simpl in Hrun. destruct (Z.ltb_spec reps (i + 0)); [lia|].
  destruct (m !! pos) as [owner|] eqn:Hpos.
  - apply IH in Hrun; lia.
  - apply IH in Hrun; [|lia].
    rewrite (map_size_insert_None pos node m Hpos) in Hrun. lia.
Qed.

End budget.

(** ** Repeating [SetNodes] *)

Section repeat_SetNodes.

Context {Node : Type} `{Countable Node} {env : Collaborators Node}.
Implicit Types (c : HashRing Node) (k v : Node) (nodes ks : list Node).

Lemma updateSortedNodes_wellSorted c : wellSorted c → updateSortedNodes c = c.
Proof. unfold wellSorted, updateSortedNodes. destruct c; simpl. by intros <-. Qed.

Lemma RemoveAllNodes_sameSettings c c' :
  sameSettings c c' → RemoveAllNodes c' = RemoveAllNodes c.
Proof. intros (Hw & Hf & Hn). unfold RemoveAllNodes. by rewrite Hw, Hf, Hn. Qed.

Lemma filter_none {A} (P : A → Prop) `{∀ x, Decision (P x)} (l : list A) :
  (∀ x, x ∈ l → ¬ P x) → filter P l = [].
Proof.
  intros Hl. destruct (filter P l) as [|x rest] eqn:Hf; [done|].
  assert (x ∈ filter P l) as Hx by (rewrite Hf; constructor).
  apply list_elem_of_filter in Hx as [HP Hx]. by apply Hl in Hx.
Qed.

(** In weighted mode [setWeightNodes] rebuilds the ring from the weight
    table and the given nodes alone, so running it again on its own
    result gives that result. *)
Lemma setWeightNodes_again fuel c nodes c' :
  setWeightNodes fuel c nodes = Some c' → setWeightNodes fuel c' nodes = Some c'.
Proof.
  intros Hrun.
  pose proof (setWeightNodes_allNodes _ _ _ _ Hrun) as [_ Hs].
  unfold setWeightNodes in *. by rewrite (RemoveAllNodes_sameSettings c c' Hs).
Qed.

(** In unweighted mode, with at least one node given, a second
    [setNoWeightNodes] finds nothing to remove and nothing to add. *)
Lemma setNoWeightNodes_again ks ks' fuel c nodes c' :
  ks ≡ₚ elements (allNodes c) → ks' ≡ₚ elements (allNodes c') →
  nodes ≠ [] →
  setNoWeightNodes ks fuel c nodes = Some c' →
  setNoWeightNodes ks' fuel c' nodes = Some c'.
Proof.
  intros Hks Hks' Hnodes Hrun.
  pose proof (setNoWeightNodes_wellSorted _ _ _ _ _ Hrun) as Hsorted.
  pose proof (setNoWeightNodes_allNodes _ _ _ _ _ Hks Hrun) as [_ Hm].
  assert (Hmatch : ∀ k, k ∈ allNodes c' → ∃ v, v ∈ nodes ∧ isSameNode k v = true).
  { intros k Hk. apply Hm in Hk. destruct (takesFullClear ks nodes).
    - exists k. split; [done | apply isSameNode_refl].
    - destruct Hk as [[_ Hk]|[Hk _]]; [done|].
      exists k. split; [done | apply isSameNode_refl]. }
  assert (Hcover : ∀ v, v ∈ nodes → ∃ k, k ∈ allNodes c' ∧ isSameNode v k = true).
  { intros v Hv. destruct (takesFullClear ks nodes).
    - exists v. split; [by apply Hm | apply isSameNode_refl].
    - destruct (decide (Is_true (existsb (λ k, isSameNode v k) (elements (allNodes c)))))
        as [Hex|Hex].
      + apply existsb_isSameNode in Hex as (k & Hk & Hvk).
        apply elem_of_elements in Hk. exists k. split; [|done].
        apply Hm. left. split; [done|]. exists v.
        split; [done | by apply isSameNode_sym].
      + exists v. split; [|apply isSameNode_refl]. apply Hm. right.
        split; [done|]. intros (k & Hk & Hvk). apply Hex.
        apply existsb_isSameNode. exists k. by rewrite elem_of_elements. }
  assert (Hremove : nodesToBeRemoved ks' nodes = []).
  { apply filter_none. intros k Hk Hnot. apply Hnot, existsb_isSameNode.
    apply Hmatch. by rewrite Hks', elem_of_elements in Hk. }
  assert (Hkeep : removeNoWeightNodes fuel c' [] = Some c').
  { unfold removeNoWeightNodes. simpl.
    rewrite <-(updateSortedNodes_wellSorted c' Hsorted) at 7. by destruct c'. }
  assert (Hadd : nodesToBeAdded (allNodes c') nodes = []).
  { apply filter_none. intros v Hv Hnot. apply Hnot, existsb_isSameNode.
    destruct (Hcover v Hv) as (k & Hk & Hvk). exists k.
    by rewrite elem_of_elements. }
  assert (Htest : takesFullClear ks' nodes = false).
  { unfold takesFullClear. rewrite Hremove. by destruct nodes. }
  unfold setNoWeightNodes. rewrite Htest, Hremove, Hkeep.
  cbn [mbind option_bind]. rewrite Hadd. unfold addNoWeightNodes.
  cbn [addEach fmap option_fmap option_map].
  by rewrite (updateSortedNodes_wellSorted c' Hsorted).
Qed.

(** [SetNodes] called again with the same nodes returns the ring it is
    called on, in weighted mode always and in unweighted mode whenever at
    least one node is given. *)
Lemma SetNodes_again c nodes c' :
  step c (OpSetNodes nodes) c' → isWeighted c = true ∨ nodes ≠ [] →
  step c' (OpSetNodes nodes) c'.
Proof.
  intros [ks fuel Hks Hrun] Hcase. simpl in Hks, Hrun.
  apply (step_run c' (OpSetNodes nodes) c' (elements (allNodes c')) fuel);
    [done|]. simpl.
  unfold SetNodes in *. destruct (isWeighted c) eqn:Hmode.
  - pose proof (setWeightNodes_allNodes fuel c nodes c' Hrun) as [_ (_ & Hmode' & _)].
    rewrite Hmode', Hmode. by apply (setWeightNodes_again fuel c).
  - pose proof (setNoWeightNodes_allNodes ks fuel c nodes c' Hks Hrun)
      as [(_ & Hmode' & _) _].
    rewrite Hmode', Hmode. destruct Hcase as [|Hnodes]; [done|].
    by apply (setNoWeightNodes_again ks _ fuel c).
Qed.

End repeat_SetNodes.

(** ** Traversal *)

Section traversal.

Context {Node : Type} `{Countable Node} {env : Collaborators Node}.
Implicit Types (c : HashRing Node) (x node : Node) (l seg out : list Node)
  (seen : gset Node).

Lemma elem_of_yieldNew seen l x : x ∈ yieldNew seen l ↔ x ∈ l ∧ x ∉ seen.
Proof.
  revert seen. induction l as [|y rest IH]; intros seen; simpl.
  - rewrite !elem_of_nil. tauto.
  - destruct (decide (y ∈ seen)) as [Hy|Hy].
    + rewrite IH, elem_of_cons. split; [tauto|].
      intros [[->|Hx] Hnot]; tauto.
    + rewrite !elem_of_cons, IH. split.
      * intros [->|[Hx Hnot]]; [tauto|]. set_solver.
      * intros [[->|Hx] Hnot]; [tauto|].
        destruct (decide (x = y)) as [->|Hne]; [tauto|]. right. set_solver.
Qed.

Lemma NoDup_yieldNew seen l : NoDup (yieldNew seen l).
Proof.
  revert seen. induction l as [|y rest IH]; intros seen; simpl.
  - constructor.
  - destruct (decide (y ∈ seen)); [done|]. constructor; [|done].
    rewrite elem_of_yieldNew. set_solver.
Qed.

Lemma yieldNew_app seen l1 l2 :
  yieldNew seen (l1 ++ l2) =
  yieldNew seen l1 ++ yieldNew (list_to_set l1 ∪ seen) l2.
Proof.
  revert seen. induction l1 as [|y rest IH]; intros seen; simpl.
  - by rewrite (left_id_L ∅ (∪)).
  - destruct (decide (y ∈ seen)) as [Hy|Hy].
    + rewrite IH. do 2 f_equal. set_solver.
    + rewrite IH. simpl. do 3 f_equal. set_solver.
Qed.

Lemma getNodeByHashKeyIndex_owners c (i : nat) :
  getNodeByHashKeyIndex c i = ownersInOrder c !! i.
Proof.
  unfold getNodeByHashKeyIndex, ownersInOrder. rewrite list_lookup_fmap.
  by destruct (sortedKeys c !! i).
Qed.

(** The loop over a stretch of indices that does not contain [start]
    and lies inside the slice. *)
Lemma sinceLoop_segment c (start : nat) seg :
  ∀ (i fuel : nat) seen out,
    (i + length seg ≤ length (sortedKeys c))%nat →
    (start < i ∨ i + length seg ≤ start)%nat →
    (∀ (k : nat) x, seg !! k = Some x → ownersInOrder c !! (i + k)%nat = Some x) →
    sinceLoop (length seg + fuel) c consumeAll start i seen out =
    sinceLoop fuel c consumeAll start (i + length seg)
      (list_to_set seg ∪ seen) (out ++ yieldNew seen seg).
Proof.
  induction seg as [|x rest IH]; intros i fuel seen out Hlen Hstart Hseg.
  - simpl. by rewrite Nat.add_0_r, (left_id_L ∅ (∪)), app_nil_r.
  - simpl in Hlen, Hstart |- *.
    assert ((i =? start)%nat = false) as -> by (apply Nat.eqb_neq; lia).
    assert ((length (sortedKeys c) <=? i)%nat = false) as ->
      by (apply Nat.leb_gt; lia).
    rewrite getNodeByHashKeyIndex_owners.
    specialize (Hseg 0%nat x eq_refl) as Hx. rewrite Nat.add_0_r in Hx.
    rewrite Hx. simpl.
    assert (Hrest : ∀ (k : nat) y, rest !! k = Some y →
              ownersInOrder c !! (i + 1 + k)%nat = Some y).
    { intros k y Hk. replace (i + 1 + k)%nat with (i + S k)%nat by lia.
      by apply Hseg. }
    replace (i + S (length rest))%nat with (i + 1 + length rest)%nat by lia.
    destruct (decide (x ∈ seen)) as [Hin|Hin].
    + rewrite IH; [|lia|lia|done]. f_equal. set_solver.
    + rewrite IH; [|lia|lia|done]. rewrite <-app_assoc. simpl.
      f_equal. set_solver.
Qed.

Lemma GetSince_startIndex c (name : string) :
  GetSince c name consumeAll =
  if (size (nodeByKey c) =? 0)%nat then Some []
  else
    let start := startIndex c (getHashKey name) in
    firstNode ← getNodeByHashKeyIndex c start;
    sinceLoop (length (sortedKeys c) + 2) c consumeAll start (start + 1)%nat
      {[firstNode]} [firstNode].
Proof.
  unfold GetSince, startIndex. by destruct (tailSearch c (getHashKey name)).
Qed.

(** Consumed to the end, [GetSince] yields the owners of the positions in
    clockwise order from the start index, each owner at its first
    occurrence only. *)
Lemma GetSince_clockwise c (name : string) :
  wellSorted c → nodeByKey c ≠ ∅ →
  let start := startIndex c (getHashKey name) in
  (start < length (sortedKeys c))%nat ∧
  GetSince c name consumeAll =
    Some (yieldNew ∅ (drop start (ownersInOrder c) ++ take start (ownersInOrder c))).
Proof.
  intros Hc Hne start.
  destruct (tailSearch_lands c (getHashKey name) Hc Hne) as (i & p & Hi & Hp & _).
  fold start in Hi. subst i.
  apply lookup_lt_Some in Hp as Hlt. split; [done|].
  assert (Hlen : length (ownersInOrder c) = length (sortedKeys c))
    by apply length_fmap.
  destruct (lookup_lt_is_Some_2 (ownersInOrder c) start) as [first Hfirst]; [lia|].
  rewrite GetSince_startIndex.
  destruct (Nat.eqb_spec (size (nodeByKey c)) 0) as [Hsize|_];
    [by apply map_size_empty_iff in Hsize|].
  fold start. cbv zeta.
  rewrite getNodeByHashKeyIndex_owners, Hfirst. cbn [mbind option_bind].
  set (n := length (sortedKeys c)) in *.
  set (os := ownersInOrder c) in *.
  (* the indices after [start], up to the end of the slice *)
  replace (n + 2)%nat with (length (drop (S start) os) + (start + 3))%nat
    by (rewrite length_drop; lia).
  rewrite (sinceLoop_segment c start (drop (S start) os));
    [|rewrite length_drop; lia | lia
     |intros k x Hk; rewrite lookup_drop in Hk;
      by replace (start + 1 + k)%nat with (S start + k)%nat by lia].
  replace (start + 1 + length (drop (S start) os))%nat with n
    by (rewrite length_drop; lia).
  (* the wrap to index 0 *)
  replace (start + 3)%nat with (S (length (take start os) + 2))
    by (rewrite length_take; lia).
  cbn [sinceLoop]. fold n.
  assert ((n =? start)%nat = false) as -> by (apply Nat.eqb_neq; lia).
  assert ((n <=? n)%nat = true) as -> by (apply Nat.leb_le; lia).
  (* the indices before [start] *)
  rewrite (sinceLoop_segment c start (take start os));
    [|rewrite length_take; lia | rewrite length_take; lia
     |intros k x Hk; apply lookup_take_Some in Hk as [Hk _]; by rewrite Nat.add_0_l].
  replace (0 + length (take start os))%nat with start
    by (rewrite length_take; lia).
  cbn [sinceLoop]. rewrite Nat.eqb_refl. f_equal.
  rewrite (drop_S os first start Hfirst). simpl.
  destruct (decide (first ∈ (∅ : gset Node))) as [Hin|_]; [set_solver|].
  by rewrite yieldNew_app, (right_id_L ∅ (∪)).
Qed.

Lemma ownersInOrder_owners c :
  wellSorted c → list_to_set (ownersInOrder c) = owners c.
Proof.
  intros Hc. unfold ownersInOrder, owners. apply set_eq. intros x.
  rewrite !elem_of_list_to_set, !list_elem_of_fmap. split.
  - intros (k & -> & Hk). apply wellSorted_stored in Hk as [node Hnode]; [|done].
    exists (k, node). rewrite Hnode. split; [done|]. by apply elem_of_map_to_list.
  - intros ([k node] & -> & Hin). apply elem_of_map_to_list in Hin.
    exists k. rewrite Hin. split; [done|].
    apply wellSorted_stored; [done|]. by eexists.
Qed.

(** Where resolution starts, traversal starts. *)
Lemma Get_startIndex c (name : string) :
  wellSorted c → nodeByKey c ≠ ∅ →
  ∃ first,
    ownersInOrder c !! startIndex c (getHashKey name) = Some first ∧
    Get c name = Some (first, true).
Proof.
  intros Hc Hne.
  destruct (Get_nonempty c name Hne Hc) as [-> Hlen].
  destruct (tailSearch_lands c (getHashKey name) Hc Hne) as (i & p & Hi & Hp & Hcase).
  destruct (wellSorted_index c i p Hc Hp) as (node & Hnode & Hidx).
  rewrite getNodeByHashKeyIndex_owners in Hidx.
  exists node. split; [by rewrite Hi|].
  unfold getNodeByHashKey. rewrite Hlen.
  destruct (nodeByKey c !! getHashKey name) as [exact|] eqn:Hexact.
  - assert (Hst : stored c (getHashKey name)) by by eexists.
    destruct Hcase as [(_ & Hle & Hmin)|(Hall & _)].
    + assert (p = getHashKey name) as -> by (specialize (Hmin _ Hst); lia).
      congruence.
    + specialize (Hall _ Hst). lia.
  - unfold startIndex in Hi.
    destruct (tailSearch c (getHashKey name)) as [firstKey found].
    by rewrite Hi, getNodeByHashKeyIndex_owners, Hidx.
Qed.

(** On a ring reached through the membership operations that stores a
    position, the traversal yields every owner of a position exactly
    once, beginning with the node that [Get] resolves the key to.  When
    the owners are exactly the members, these are the [M] members. *)
Lemma GetSince_owners c (name : string) :
  reachable c → nodeByKey c ≠ ∅ →
  ∃ first l,
    GetSince c name consumeAll = Some (first :: l) ∧
    Get c name = Some (first, true) ∧
    NoDup (first :: l) ∧
    list_to_set (first :: l) = owners c ∧
    (owners c = allNodes c → length (first :: l) = size (allNodes c)).
Proof.
  intros Hreach Hne. apply reachable_wellSorted in Hreach as Hc.
  destruct (GetSince_clockwise c name Hc Hne) as [Hlt Hrun].
  destruct (Get_startIndex c name Hc Hne) as (first & Hfirst & Hget).
  set (start := startIndex c (getHashKey name)) in *.
  set (os := ownersInOrder c) in *.
  assert (Hyield : yieldNew ∅ (drop start os ++ take start os) =
            first :: yieldNew {[first]} (drop (S start) os ++ take start os)).
  { rewrite (drop_S os first start Hfirst). simpl.
    destruct (decide (first ∈ (∅ : gset Node))) as [Hin|_]; [set_solver|].
    by rewrite (right_id_L ∅ (∪)). }
  assert (Hset : list_to_set (yieldNew ∅ (drop start os ++ take start os))
            = owners c).
  { rewrite <-(ownersInOrder_owners c Hc). fold os. apply set_eq. intros x.
    rewrite !elem_of_list_to_set, elem_of_yieldNew, elem_of_app.
    rewrite <-(take_drop start os) at 3. rewrite elem_of_app. set_solver. }
  pose proof (NoDup_yieldNew ∅ (drop start os ++ take start os)) as Hnodup.
  rewrite Hyield in Hrun, Hset, Hnodup.
  eexists first, _. split_and!; [done | done | done | done |].
  intros <-. rewrite <-Hset. by rewrite size_list_to_set.
Qed.




End traversal.

(** * The concrete rings

    The operations run on the rings of [Collide], [Gap] and [Alias]. *)

Lemma Collide_reachable_ring1 : reachable (env := Collide.env) Collide.ring1.
Proof.
  apply (reachable_step Collide.ring0 (OpAddNodes [1])).
  - apply reachable_New.
  - run_step (@nil Z) 10%nat.
Qed.

Lemma Collide_reachable_ring12 : reachable (env := Collide.env) Collide.ring12.
Proof.
  apply (reachable_step Collide.ring1 (OpAddNodes [2])).
  - apply Collide_reachable_ring1.
  - run_step [1] 10%nat.
Qed.

Lemma Collide_reachable_ring2 : reachable (env := Collide.env) Collide.ring2.
Proof.
  apply (reachable_step Collide.ring12 (OpRemoveNodes [1])).
  - apply Collide_reachable_ring12.
  - run_step [2; 1] 10%nat.
Qed.

Lemma Collide_reachable_ringLeftover :
  reachable (env := Collide.env) Collide.ringLeftover.
Proof.
  apply (reachable_step Collide.ring2 (OpRemoveNodes [2])).
  - apply Collide_reachable_ring2.
  - run_step [2] 10%nat.
Qed.

Lemma Collide_reachable_ringLeftover3 :
  reachable (env := Collide.env) Collide.ringLeftover3.
Proof.
  apply (reachable_step Collide.ringLeftover (OpAddNodes [3])).
  - apply Collide_reachable_ringLeftover.
  - run_step (@nil Z) 10%nat.
Qed.

Lemma Collide_nodeByKey_ring12_nonempty : nodeByKey Collide.ring12 ≠ ∅.
Proof. apply map_size_non_empty_iff. vm_compute. lia. Qed.

Lemma Collide_stored_ring12 (q : Z) :
  stored Collide.ring12 q → q = 100 ∨ q = 101 ∨ q = 201 ∨ q = 202.
Proof.
  intros Hq.
  apply wellSorted_stored in Hq;
    [|apply (reachable_wellSorted (env := Collide.env)), Collide_reachable_ring12].
  simpl in Hq.
  repeat (apply elem_of_cons in Hq as [->|Hq]; [tauto|]).
  by apply elem_of_nil in Hq.
Qed.

(** The three cases of C7 on the ring with positions 100, 101 (node 1)
    and 201, 202 (node 2): a key hashing to 100, one hashing to 150 and
    one hashing to 350. *)
Lemma C7_resolution_rule_witness :
  Get (env := Collide.env) Collide.ring12 "ab" = Some (1, true) ∧
  Get (env := Collide.env) Collide.ring12 "abc" = Some (2, true) ∧
  (Collide.ring12.(sortedKeys) !! 0%nat = Some 100 ∧
   Get (env := Collide.env) Collide.ring12 "abcdefg" = Some (1, true)).
Proof.
  split; [|split].
  - apply (C7_resolution_rule (env := Collide.env) Collide.ring12 "ab"
             Collide_reachable_ring12 Collide_nodeByKey_ring12_nonempty).
    reflexivity.
  - apply (proj1 (proj2 (C7_resolution_rule (env := Collide.env)
             Collide.ring12 "abc"
             Collide_reachable_ring12 Collide_nodeByKey_ring12_nonempty)) 201).
    + reflexivity.
    + split_and!.
      * exists 2. reflexivity.
      * vm_compute. discriminate.
      * intros q Hq. apply Collide_stored_ring12 in Hq.
        change (getHashKey "abc") with 150. lia.
    + reflexivity.
  - apply (proj2 (proj2 (C7_resolution_rule (env := Collide.env)
             Collide.ring12 "abcdefg"
             Collide_reachable_ring12 Collide_nodeByKey_ring12_nonempty)) 100).
    + intros q Hq. apply Collide_stored_ring12 in Hq.
      change (getHashKey "abcdefg") with 350. lia.
    + split.
      * exists 1. reflexivity.
      * intros q Hq. apply Collide_stored_ring12 in Hq. lia.
    + reflexivity.
Defined.

Lemma Collide_step_SetNodes_ring12 (ks : list Z) :
  ks ≡ₚ elements (allNodes Collide.ring12) →
  SetNodes (env := Collide.env) ks 10 Collide.ring12 [2] = Some Collide.ring2fresh.
Proof. intros Hks. order_cases Hks; vm_compute; reflexivity. Qed.

Lemma Collide_order_ring12 : [1; 2] ≡ₚ elements (allNodes Collide.ring12).
Proof. vm_compute. first [reflexivity | apply perm_swap]. Qed.


Lemma Collide_step_RemoveNodes_ring12 :
  step (env := Collide.env) Collide.ring12 (OpRemoveNodes [1]) Collide.ring2.
Proof. run_step (elements (allNodes Collide.ring12)) 10%nat. Qed.


(** C6, counterexample.  On the weighted ring that [New] builds from the
    weight table [{1: 3}], [RemoveAllNodes] does not leave all four
    structures empty: the weight of node 1 is still there. *)
Lemma C6_counterexample :
  isWeighted Collide.ringWeighted = true ∧
  ¬ (sortedKeys (RemoveAllNodes Collide.ringWeighted) = [] ∧
     nodeByKey (RemoveAllNodes Collide.ringWeighted) = ∅ ∧
     allNodes (RemoveAllNodes Collide.ringWeighted) = ∅ ∧
     weightByNode (RemoveAllNodes Collide.ringWeighted) = ∅).
Proof.
  split; [reflexivity|]. intros (_ & _ & _ & Hw).
  apply (f_equal (λ m : gmap Z Z, m !! 1)) in Hw. vm_compute in Hw. discriminate.
Qed.



(** C1, evaluated at a failing input.  Two replicas per node; node 2's
    replica 0 collides with node 1's.  After [AddNodes(1)],
    [AddNodes(2)], [RemoveNodes(1)], [RemoveNodes(2)] the ring has no
    member, but the removal scan of node 2 stopped one replica short and
    position 202 is still stored: [Get] answers found = true, with node
    2, for every key.  After a further [AddNodes(3)] the ring has the
    single member 3, and [Get] still resolves a key hashing to 100 to
    node 2, which is not a member. *)
Theorem C1_Get_finds_removed_node :
  (reachable (env := Collide.env) Collide.ringLeftover ∧
   allNodes Collide.ringLeftover = ∅ ∧
   ∀ name, Get (env := Collide.env) Collide.ringLeftover name = Some (2, true)) ∧
  (reachable (env := Collide.env) Collide.ringLeftover3 ∧
   allNodes Collide.ringLeftover3 = {[3]} ∧
   Get (env := Collide.env) Collide.ringLeftover3 "ab" = Some (2, true)).
Proof.
  split; split_and!.
  - apply Collide_reachable_ringLeftover.
  - reflexivity.
  - intros name. unfold Get, getPrimaryNode.
    generalize (getHashKey (Collaborators := Collide.env) name). intros h.
    change (getNodeByHashKey (env := Collide.env) Collide.ringLeftover h = Some (2, true)).
    unfold getNodeByHashKey. simpl.
    destruct (decide (h = 202)) as [->|Hne].
    + by rewrite lookup_insert_eq.
    + rewrite lookup_insert_ne, lookup_empty by done.
      unfold tailCmp. destruct (h <=? 202) eqn:Hle; cbn; rewrite ?Hle; reflexivity.
  - apply Collide_reachable_ringLeftover3.
  - by vm_compute.
  - by vm_compute.
Qed.

(** C3, evaluated at a failing input.  On the ring with members 1 and 2,
    [SetNodes(2)] finds one member to remove, node 1, which is not the
    whole membership; the test compares that count with the number of
    given nodes, also one, and takes the full clear.  Conversely, on the
    ring whose only member is node 1, [SetNodes(2, 3)] has the whole
    membership to remove and does not take the full clear. *)
Theorem C3_full_clear_test (ks : list Z) :
  ks ≡ₚ elements (allNodes Collide.ring12) →
  (nodesToBeRemoved (env := Collide.env) ks [2] = [1] ∧
   takesFullClear (env := Collide.env) ks [2] = true) ∧
  (elements (allNodes Collide.ring1) = [1] ∧
   nodesToBeRemoved (env := Collide.env) [1] [2; 3] = [1] ∧
   takesFullClear (env := Collide.env) [1] [2; 3] = false).
Proof.
  intros Hks. split; [|by vm_compute].
  order_cases Hks; by vm_compute.
Qed.

Lemma C3_full_clear_test_witness :
  (nodesToBeRemoved (env := Collide.env) [1; 2] [2] = [1] ∧
   takesFullClear (env := Collide.env) [1; 2] [2] = true) ∧
  (elements (allNodes Collide.ring1) = [1] ∧
   nodesToBeRemoved (env := Collide.env) [1] [2; 3] = [1] ∧
   takesFullClear (env := Collide.env) [1] [2; 3] = false).
Proof. apply (C3_full_clear_test [1; 2]), Collide_order_ring12. Defined.

(** C4, evaluated at a failing input.  Node 2 is a member of the ring
    with members 1 and 2, where it owns positions 201 and 202, and it is
    the node given to [SetNodes(2)].  The call clears the ring and places
    node 2 anew: afterwards node 2 owns positions 100 and 201. *)
Theorem C4_kept_node_is_placed_anew (ks : list Z) :
  ks ≡ₚ elements (allNodes Collide.ring12) →
  SetNodes (env := Collide.env) ks 10 Collide.ring12 [2] = Some Collide.ring2fresh ∧
  2 ∈ allNodes Collide.ring12 ∧ 2 ∈ allNodes Collide.ring2fresh ∧
  positionsOf Collide.ring12 2 = {[201; 202]} ∧
  positionsOf Collide.ring2fresh 2 = {[100; 201]}.
Proof.
  intros Hks. split; [by apply Collide_step_SetNodes_ring12|].
  split_and!; by vm_compute.
Qed.

Lemma C4_kept_node_is_placed_anew_witness :
  SetNodes (env := Collide.env) [1; 2] 10 Collide.ring12 [2]
    = Some Collide.ring2fresh ∧
  2 ∈ allNodes Collide.ring12 ∧ 2 ∈ allNodes Collide.ring2fresh ∧
  positionsOf Collide.ring12 2 = {[201; 202]} ∧
  positionsOf Collide.ring2fresh 2 = {[100; 201]}.
Proof. apply (C4_kept_node_is_placed_anew [1; 2]), Collide_order_ring12. Defined.

(** C5, evaluated at a failing input.  The hash algorithm derives no
    position for replica 0 of node 1 and one position for each later
    replica.  [AddNodes(1)] with two replicas per node leaves the
    placement loop at replica 0: node 1 becomes a member that owns no
    position.  The removal loop, on a table where node 1 owns positions
    101 and 102, steps over replica 0 and goes on to delete both. *)
Theorem C5_empty_derivation_ends_placement :
  getIterateHashKeyForNode (Collaborators := Gap.env) 1 0 = [] ∧
  getIterateHashKeyForNode (Collaborators := Gap.env) 1 1 = [101] ∧
  getIterateHashKeyForNode (Collaborators := Gap.env) 1 2 = [102] ∧
  AddNodes (env := Gap.env) [] 10 Gap.ring0 [1] = Some Gap.ring1 ∧
  1 ∈ allNodes Gap.ring1 ∧ positionsOf Gap.ring1 1 = ∅ ∧
  removeLoop (env := Gap.env) 10 1 0 2 (Collide.table [(101, 1); (102, 1)])
    = Some (3, ∅).
Proof. split_and!; by vm_compute. Qed.

(** C8, evaluated at a failing input.  The first ring of C1 has no member
    ([M = 0]) and still stores position 202 of the removed node 2: the
    traversal yields one node, node 2.  The second ring of C1 has the
    single member 3 ([M = 1]): the traversal yields two nodes, the
    removed node 2 and node 3. *)
Theorem C8_traversal_yields_removed_node :
  (reachable (env := Collide.env) Collide.ringLeftover ∧
   size (allNodes Collide.ringLeftover) = 0%nat ∧
   GetSince (env := Collide.env) Collide.ringLeftover "k" consumeAll = Some [2]) ∧
  (reachable (env := Collide.env) Collide.ringLeftover3 ∧
   size (allNodes Collide.ringLeftover3) = 1%nat ∧
   GetSince (env := Collide.env) Collide.ringLeftover3 "k" consumeAll
     = Some [2; 3]).
Proof.
  split; split_and!; try by vm_compute.
  - apply Collide_reachable_ringLeftover.
  - apply Collide_reachable_ringLeftover3.
Qed.

(** C10, evaluated at a failing input.  On the reachable ring whose only
    member is node 2 (positions 201 and 202), [SetNodes()] removes node 2
    by the removal scan, which leaves position 202 behind; a second
    [SetNodes()] finds nothing to remove, takes the full clear and
    empties the table.  The two states differ. *)
Theorem C10_SetNodes_twice_differs :
  reachable (env := Collide.env) Collide.ring2 ∧
  elements (allNodes Collide.ring2) = [2] ∧
  SetNodes (env := Collide.env) [2] 10 Collide.ring2 [] = Some Collide.ringLeftover ∧
  elements (allNodes Collide.ringLeftover) = [] ∧
  SetNodes (env := Collide.env) [] 10 Collide.ringLeftover [] = Some Collide.ringCleared ∧
  sortedKeys Collide.ringLeftover ≠ sortedKeys Collide.ringCleared ∧
  nodeByKey Collide.ringLeftover ≠ nodeByKey Collide.ringCleared.
Proof.
  split_and!; try by vm_compute.
  apply Collide_reachable_ring2.
Qed.

(** * Further properties of the ring *)

(** ** The index and the lookups *)

Section index_and_lookups.

Context {Node : Type} `{Countable Node} {env : Collaborators Node}.
Implicit Types (c : HashRing Node) (p q key : Z) (node : Node).

Lemma StronglySorted_le_lt (l : list Z) :
  StronglySorted Z.le l → NoDup l → StronglySorted Z.lt l.
Proof.
  induction 1 as [|x l Hs IH Hall]; intros Hnd; [constructor|].
  apply NoDup_cons in Hnd as [Hx Hnd]. constructor; [by apply IH|].
  rewrite Forall_forall in Hall |- *. intros y Hy.
  specialize (Hall y Hy). assert (x ≠ y) by (intros ->; done). lia.
Qed.

(** X1.  After any sequence of membership operations [sortedKeys] is
    strictly ascending, holds exactly the keys of [nodeByKey], and has as
    many elements as [nodeByKey] has entries. *)
Theorem X1_sorted_index c :
  reachable c →
  StronglySorted Z.lt (sortedKeys c) ∧
  (∀ p, p ∈ sortedKeys c ↔ is_Some (nodeByKey c !! p)) ∧
  length (sortedKeys c) = size (nodeByKey c).
Proof.
  intros Hc%reachable_wellSorted. split_and!.
  - apply StronglySorted_le_lt;
      [by apply wellSorted_StronglySorted | by apply wellSorted_NoDup].
  - intros p. by apply wellSorted_stored.
  - by apply wellSorted_length.
Qed.

(** X2.  On a ring reached through the membership operations [Get]
    never panics: it answers the zero node and found = false when no
    position is stored, and found = true with the owner of a stored
    position otherwise. *)
Theorem X2_Get_found_iff_stored c (name : string) :
  reachable c →
  (nodeByKey c = ∅ → Get c name = Some (zeroN, false)) ∧
  (nodeByKey c ≠ ∅ →
     ∃ p node, nodeByKey c !! p = Some node ∧ Get c name = Some (node, true)).
Proof.
  intros Hreach. split.
  - intros Hempty. unfold Get. by rewrite Hempty, map_size_empty.
  - by apply Get_total.
Qed.

(** X3.  On a ring reached through the membership operations
    [tailSearch] returns the index of the smallest stored position that
    is at least the key, with found = true; when every stored position is
    smaller than the key it returns the length of [sortedKeys], with
    found = false. *)
Theorem X3_tailSearch c key :
  reachable c →
  ∃ i : nat,
    tailSearch c key = (i, bool_decide (i < length (sortedKeys c))%nat) ∧
    (∀ p, sortedKeys c !! i = Some p → leastStoredFrom c key p) ∧
    ((length (sortedKeys c) ≤ i)%nat →
       i = length (sortedKeys c) ∧ ∀ q, stored c q → q < key).
Proof.
  intros Hc%reachable_wellSorted.
  pose proof (wellSorted_StronglySorted c Hc) as Hs.
  destruct (tailSearch_sorted (sortedKeys c) key Hs) as (i & Hi & Hle & Hlo & Hhi).
  exists i. split_and!; [done | |].
  - intros p Hp. split_and!.
    + apply wellSorted_stored; [done|]. apply list_elem_of_lookup. eauto.
    + by apply (Hhi i).
    + intros q Hq Hkq. apply wellSorted_stored in Hq; [|done].
      apply list_elem_of_lookup in Hq as [k Hk].
      destruct (decide (k < i)%nat) as [Hki|Hki].
      * specialize (Hlo k q Hki Hk). lia.
      * apply (StronglySorted_lookup_le (sortedKeys c) i k); [done | lia | done | done].
  - intros Hge. split; [lia|]. intros q Hq.
    apply wellSorted_stored in Hq; [|done].
    apply list_elem_of_lookup in Hq as [k Hk].
    apply (Hlo k); [|done]. apply lookup_lt_Some in Hk. lia.
Qed.

(** X4.  On a ring reached through the membership operations
    [getMaxHashKey] answers [(0, false)] when no position is stored, and
    otherwise the largest stored position with ok = true. *)
Theorem X4_getMaxHashKey c :
  reachable c →
  (nodeByKey c = ∅ → getMaxHashKey c = (0, false)) ∧
  (nodeByKey c ≠ ∅ →
     ∃ k, getMaxHashKey c = (k, true) ∧ stored c k ∧ ∀ q, stored c q → q ≤ k).
Proof.
  intros Hc%reachable_wellSorted.
  pose proof (wellSorted_length c Hc) as Hlen. unfold getMaxHashKey. split.
  - intros Hempty. rewrite Hlen, Hempty, map_size_empty. done.
  - intros Hne. apply map_size_non_empty_iff in Hne.
    destruct (Nat.eqb_spec (length (sortedKeys c)) 0) as [Hz|Hnz]; [lia|].
    set (n := length (sortedKeys c)) in *.
    destruct (lookup_lt_is_Some_2 (sortedKeys c) (n - 1)) as [k Hk]; [lia|].
    exists k. rewrite (list_lookup_total_correct _ _ _ Hk). split_and!; [done| |].
    + apply wellSorted_stored; [done|]. apply list_elem_of_lookup. eauto.
    + intros q Hq. apply wellSorted_stored in Hq; [|done].
      apply list_elem_of_lookup in Hq as [j Hj].
      apply lookup_lt_Some in Hj as Hjn.
      apply (StronglySorted_lookup_le (sortedKeys c) j (n - 1));
        [by apply wellSorted_StronglySorted | lia | done | done].
Qed.

(** X5.  On a ring reached through the membership operations that
    stores a position, [GetSince] consumed to the end yields every owner
    of a stored position exactly once, and the first node it yields is
    the node that [Get] resolves the key to.  When no position is stored
    it yields nothing, whatever the consumer. *)
Theorem X5_GetSince_each_owner_once c (name : string) :
  reachable c →
  (nodeByKey c = ∅ → ∀ yield, GetSince c name yield = Some []) ∧
  (nodeByKey c ≠ ∅ →
     ∃ first rest,
       GetSince c name consumeAll = Some (first :: rest) ∧
       Get c name = Some (first, true) ∧
       NoDup (first :: rest) ∧
       list_to_set (first :: rest) = owners c).
Proof.
  intros Hreach. split.
  - intros Hempty yield. unfold GetSince. by rewrite Hempty, map_size_empty.
  - intros Hne.
    destruct (GetSince_owners c name Hreach Hne)
      as (first & rest & Hrun & Hget & Hnd & Hset & _).
    by exists first, rest.
Qed.

(** X6.  The order of the traversal: consumed to the end, [GetSince]
    yields the owners of the positions from the start index to the end of
    [sortedKeys] and then from index 0 up to the start index, each owner
    where it first occurs; the start index is in range. *)
Theorem X6_GetSince_clockwise c (name : string) :
  reachable c → nodeByKey c ≠ ∅ →
  (startIndex c (getHashKey name) < length (sortedKeys c))%nat ∧
  GetSince c name consumeAll =
    Some (yieldNew ∅
            (drop (startIndex c (getHashKey name)) (ownersInOrder c) ++
             take (startIndex c (getHashKey name)) (ownersInOrder c))).
Proof.
  intros Hc%reachable_wellSorted Hne. by apply GetSince_clockwise.
Qed.


End index_and_lookups.

(** ** What the membership operations change *)

Section changes.

Context {Node : Type} `{Countable Node} {env : Collaborators Node}.
Implicit Types (c : HashRing Node) (o : Op Node) (p q h : Z)
  (node n x y : Node) (nodes ks : list Node).

(** The position [Get] resolves a key to. *)
Lemma Get_position c (name : string) :
  wellSorted c → nodeByKey c ≠ ∅ →
  ∃ p node,
    nodeByKey c !! p = Some node ∧ Get c name = Some (node, true) ∧
    (leastStoredFrom c (getHashKey name) p ∨
     ((∀ q, stored c q → q < getHashKey name) ∧ leastStored c p)).
Proof.
  intros Hc Hne.
  destruct (Get_startIndex c name Hc Hne) as (first & Hfirst & Hget).
  destruct (tailSearch_lands c (getHashKey name) Hc Hne)
    as (i & p & Hi & Hp & Hcase).
  destruct (wellSorted_index c i p Hc Hp) as (node & Hnode & Hidx).
  rewrite getNodeByHashKeyIndex_owners, <-Hi, Hfirst in Hidx.
  injection Hidx as ->. exists p, node. split_and!; [done | done |].
  destruct Hcase as [?|(? & ? & _)]; [by left | by right].
Qed.

Lemma Get_of_position c (name : string) p node :
  wellSorted c →
  leastStoredFrom c (getHashKey name) p ∨
    ((∀ q, stored c q → q < getHashKey name) ∧ leastStored c p) →
  nodeByKey c !! p = Some node →
  Get c name = Some (node, true).
Proof.
  intros Hc Hcase Hnode.
  assert (Hne : nodeByKey c ≠ ∅).
  { intros Hempty. by rewrite Hempty, lookup_empty in Hnode. }
  destruct (Get_position c name Hc Hne) as (p' & node' & Hnode' & -> & Hcase').
  assert (p' = p) as ->; [|congruence].
  destruct Hcase as [Hp|[Hall Hp]], Hcase' as [Hp'|[Hall' Hp']].
  - by eapply leastStoredFrom_unique.
  - destruct Hp as (Hst & Hle & _). specialize (Hall' p Hst). lia.
  - destruct Hp' as (Hst & Hle & _). specialize (Hall p' Hst). lia.
  - by eapply leastStored_unique.
Qed.

Lemma Get_found_nonempty c (name : string) node :
  Get c name = Some (node, true) → nodeByKey c ≠ ∅.
Proof.
  intros Hget Hempty. unfold Get in Hget.
  by rewrite Hempty, map_size_empty in Hget.
Qed.

Lemma AddNodes_entries ks fuel c nodes c' :
  isWeighted c = false → AddNodes ks fuel c nodes = Some c' →
  (∀ p n, nodeByKey c !! p = Some n → nodeByKey c' !! p = Some n) ∧
  (∀ p n, nodeByKey c' !! p = Some n → nodeByKey c !! p = Some n ∨ n ∈ nodes).
Proof.
  intros Hmode Hrun. unfold AddNodes, addNoWeightNodes in Hrun.
  rewrite Hmode in Hrun. apply fmap_Some in Hrun as (c1 & Hadd & ->).
  by apply addEach_entries in Hadd.
Qed.

Lemma RemoveNodes_entries ks fuel c nodes c' :
  isWeighted c = false → RemoveNodes ks fuel c nodes = Some c' →
  (∀ p n, nodeByKey c' !! p = Some n → nodeByKey c !! p = Some n) ∧
  (∀ p n, nodeByKey c !! p = Some n →
     (∀ y, y ∈ nodes → isSameNode n y = false) → nodeByKey c' !! p = Some n).
Proof.
  intros Hmode Hrun. unfold RemoveNodes, removeNoWeightNodes in Hrun.
  rewrite Hmode in Hrun.
  apply bind_Some in Hrun as ([m members] & Hrem & [= <-]).
  by apply removeEach_entries in Hrem.
Qed.

(** X8.  Unweighted [AddNodes] never overwrites: every position stored
    before the call is stored afterwards with the same owner, and every
    position stored afterwards that was not stored before is owned by one
    of the added nodes. *)
Theorem X8_AddNodes_never_overwrites c nodes c' :
  isWeighted c = false → step c (OpAddNodes nodes) c' →
  (∀ p n, nodeByKey c !! p = Some n → nodeByKey c' !! p = Some n) ∧
  (∀ p n, nodeByKey c' !! p = Some n → nodeByKey c !! p = Some n ∨ n ∈ nodes).
Proof. intros Hmode [ks fuel _ Hrun]. by eapply AddNodes_entries. Qed.

(** X9.  Bounded churn of unweighted [AddNodes]: a key that resolved to
    a node before the call resolves afterwards to the same node or to
    one of the added nodes. *)
Theorem X9_AddNodes_churn c nodes c' (name : string) node :
  reachable c → isWeighted c = false → step c (OpAddNodes nodes) c' →
  Get c name = Some (node, true) →
  ∃ node', Get c' name = Some (node', true) ∧ (node' = node ∨ node' ∈ nodes).
Proof.
  intros Hc%reachable_wellSorted Hmode [ks fuel _ Hrun] Hget.
  pose proof (runOp_wellSorted ks fuel c (OpAddNodes nodes) c' Hrun) as Hc'.
  simpl in Hrun. apply AddNodes_entries in Hrun as [Hkeep Hnew]; [|done].
  pose proof (Get_found_nonempty c name node Hget) as Hne.
  destruct (Get_position c name Hc Hne) as (p & n & Hp & Hget1 & Hcase).
  assert (n = node) as -> by congruence.
  assert (Hne' : nodeByKey c' ≠ ∅).
  { intros Hempty. apply Hkeep in Hp. by rewrite Hempty, lookup_empty in Hp. }
  destruct (Get_position c' name Hc' Hne') as (p' & n' & Hp' & Hget' & Hcase').
  exists n'. split; [done|].
  destruct (Hnew p' n' Hp') as [Hold|Hin]; [left|by right].
  assert (Hsub : ∀ q, stored c q → stored c' q).
  { intros q [owner Hq]. exists owner. by apply Hkeep. }
  assert (Hst : stored c p') by by eexists.
  assert (p' = p) as ->; [|congruence].
  destruct Hcase as [(Hs & Hle & Hmin)|[Hall (Hs & Hmin)]],
    Hcase' as [(Hs' & Hle' & Hmin')|[Hall' (Hs' & Hmin')]].
  - specialize (Hmin p' Hst Hle'). specialize (Hmin' p (Hsub p Hs) Hle). lia.
  - specialize (Hall' p (Hsub p Hs)). lia.
  - specialize (Hall p' Hst). lia.
  - specialize (Hmin p' Hst). specialize (Hmin' p (Hsub p Hs)). lia.
Qed.

(** X10.  Bounded churn of unweighted [RemoveNodes]: a key that resolved
    to a node whose label is that of none of the removed nodes resolves
    to the same node afterwards. *)
Theorem X10_RemoveNodes_churn c nodes c' (name : string) node :
  reachable c → isWeighted c = false → step c (OpRemoveNodes nodes) c' →
  Get c name = Some (node, true) →
  (∀ y, y ∈ nodes → isSameNode node y = false) →
  Get c' name = Some (node, true).
Proof.
  intros Hc%reachable_wellSorted Hmode [ks fuel _ Hrun] Hget Hother.
  pose proof (runOp_wellSorted ks fuel c (OpRemoveNodes nodes) c' Hrun) as Hc'.
  simpl in Hrun. apply RemoveNodes_entries in Hrun as [Hsub Hkeep]; [|done].
  pose proof (Get_found_nonempty c name node Hget) as Hne.
  destruct (Get_position c name Hc Hne) as (p & n & Hp & Hget1 & Hcase).
  assert (n = node) as -> by congruence.
  assert (Hst : ∀ q, stored c' q → stored c q).
  { intros q [owner Hq]. exists owner. by apply Hsub. }
  apply (Get_of_position c' name p node Hc'); [|by apply Hkeep].
  assert (Hp' : stored c' p) by (exists node; by apply Hkeep).
  destruct Hcase as [(_ & Hle & Hmin)|[Hall (_ & Hmin)]].
  - left. split_and!; [done | done |]. intros q Hq. by apply Hmin, Hst.
  - right. split; [|split; [done|]].
    + intros q Hq. by apply Hall, Hst.
    + intros q Hq. by apply Hmin, Hst.
Qed.

(** X11.  Unweighted [RemoveNodes] only deletes, and only positions
    whose owner has the label of a removed node: every position stored
    afterwards was stored before with the same owner, and a position
    whose owner has the label of none of the removed nodes stays. *)
Theorem X11_RemoveNodes_only_deletes c nodes c' :
  isWeighted c = false → step c (OpRemoveNodes nodes) c' →
  (∀ p n, nodeByKey c' !! p = Some n → nodeByKey c !! p = Some n) ∧
  (∀ p n, nodeByKey c !! p = Some n →
     (∀ y, y ∈ nodes → isSameNode n y = false) → nodeByKey c' !! p = Some n).
Proof. intros Hmode [ks fuel _ Hrun]. by eapply RemoveNodes_entries. Qed.

(** X12.  The frame of unweighted [SetNodes] when it removes member by
    member: a member whose label is that of one of the given nodes stays
    a member and owns exactly the positions it owned before. *)
Theorem X12_SetNodes_frame ks fuel c nodes c' x :
  isWeighted c = false → ks ≡ₚ elements (allNodes c) →
  takesFullClear ks nodes = false →
  SetNodes ks fuel c nodes = Some c' →
  x ∈ allNodes c → (∃ v, v ∈ nodes ∧ isSameNode x v = true) →
  x ∈ allNodes c' ∧ positionsOf c' x = positionsOf c x.
Proof.
  intros Hmode Hks Hpath Hrun Hx Hmatch. unfold SetNodes in Hrun.
  rewrite Hmode in Hrun. by eapply setNoWeightNodes_frame.
Qed.

(** X13.  [SetNodes] called a second time with the same nodes returns
    the ring it is called on, whatever the iteration order: always in
    weighted mode, and in unweighted mode when at least one node is
    given. *)
Theorem X13_SetNodes_twice ks fuel c nodes c' ks' :
  ks ≡ₚ elements (allNodes c) → SetNodes ks fuel c nodes = Some c' →
  isWeighted c = true ∨ nodes ≠ [] →
  ks' ≡ₚ elements (allNodes c') →
  SetNodes ks' fuel c' nodes = Some c'.
Proof.
  intros Hks Hrun Hcase Hks'. unfold SetNodes in *.
  destruct (isWeighted c) eqn:Hmode.
  - pose proof (setWeightNodes_allNodes fuel c nodes c' Hrun) as [_ (_ & Hmode' & _)].
    rewrite Hmode', Hmode. by apply (setWeightNodes_again fuel c).
  - pose proof (setNoWeightNodes_allNodes ks fuel c nodes c' Hks Hrun)
      as [(_ & Hmode' & _) _].
    rewrite Hmode', Hmode. destruct Hcase as [|Hnodes]; [done|].
    by apply (setNoWeightNodes_again ks ks' fuel c).
Qed.

(** X14.  The replica budget of [addNodeWithoutSort]: when every replica
    of the node derives at least one position and the call returns, the
    node has become a member, the table has grown by the target count or
    by one more, and every new entry is owned by the node. *)
Theorem X14_addNodeWithoutSort_budget fuel c node reps c' :
  (∀ k, getIterateHashKeyForNode node k ≠ []) → 0 ≤ reps →
  addNodeWithoutSort fuel c node reps = Some c' →
  node ∈ allNodes c' ∧
  (Z.of_nat (size (nodeByKey c')) = Z.of_nat (size (nodeByKey c)) + reps ∨
   Z.of_nat (size (nodeByKey c')) = Z.of_nat (size (nodeByKey c)) + reps + 1) ∧
  (∀ p n, nodeByKey c' !! p = Some n → nodeByKey c !! p = Some n ∨ n = node).
Proof.
  intros Hderive Hreps Hrun. unfold addNodeWithoutSort in Hrun.
  apply bind_Some in Hrun as (m & Hloop & [= <-]). simpl. split_and!.
  - set_solver.
  - by eapply addLoop_budget.
  - by apply addLoop_entries in Hloop as [_ Hnew].
Qed.

End changes.

(** ** Settings and modes *)

Section settings.

Context {Node : Type} `{Countable Node} {env : Collaborators Node}.
Implicit Types (c : HashRing Node) (o : Op Node) (p : Z)
  (node n : Node) (nodes ks : list Node).

Lemma sameSettings_trans c1 c2 c3 :
  sameSettings c1 c2 → sameSettings c2 c3 → sameSettings c1 c3.
Proof.
  intros (?&?&?) (?&?&?). unfold sameSettings. split_and!; congruence.
Qed.

Lemma runOp_sameSettings ks fuel c o c' :
  ks ≡ₚ elements (iteratedSet c o) → runOp ks fuel c o = Some c' →
  sameSettings c c'.
Proof.
  intros Hks Hrun. destruct o as [nodes|nodes|nodes|]; simpl in Hks, Hrun.
  - unfold AddNodes, addWeightNodes in Hrun. destruct (isWeighted c).
    + by apply setWeightNodes_allNodes in Hrun as [_ ?].
    + by apply addNoWeightNodes_allNodes in Hrun as [_ ?].
  - unfold SetNodes in Hrun. destruct (isWeighted c).
    + by apply setWeightNodes_allNodes in Hrun as [_ ?].
    + by apply setNoWeightNodes_allNodes in Hrun as [? _].
  - unfold RemoveNodes, removeWeightNodes in Hrun.
    destruct (isWeighted c) eqn:Hmode.
    + apply setWeightNodes_allNodes in Hrun as [_ (Hw & Hf & Hn)].
      simpl in Hw, Hf, Hn. unfold sameSettings. split_and!; congruence.
    + by apply removeNoWeightNodes_allNodes in Hrun as [_ ?].
  - by injection Hrun as <-.
Qed.

(** X15.  No membership operation changes the weight table, the mode
    flag or the replica count. *)
Theorem X15_operations_keep_settings c o c' :
  step c o c' →
  weightByNode c' = weightByNode c ∧ isWeighted c' = isWeighted c ∧
  numReps c' = numReps c.
Proof. intros [ks fuel Hks Hrun]. by eapply runOp_sameSettings. Qed.

(** X16.  A ring is never in weighted mode with an empty weight table:
    [New] switches the mode off when no weight was given, and the
    operations keep both. *)
Theorem X16_weighted_has_weights c :
  reachable c → isWeighted c = true → weightByNode c ≠ ∅.
Proof.
  induction 1 as [reps weights weighted|c o c' _ IH [ks fuel Hks Hrun]].
  - simpl. intros Hmode Hempty. subst weights.
    rewrite map_size_empty in Hmode. by destruct weighted.
  - apply runOp_sameSettings in Hrun as (-> & -> & _); [done|done].
Qed.





Lemma addNoWeightNodes_nil fuel c :
  wellSorted c → addNoWeightNodes fuel c [] = Some c.
Proof.
  intros Hc. unfold addNoWeightNodes. simpl.
  by rewrite (updateSortedNodes_wellSorted c Hc).
Qed.

Lemma removeNoWeightNodes_nil fuel c :
  wellSorted c → removeNoWeightNodes fuel c [] = Some c.
Proof.
  unfold wellSorted, removeNoWeightNodes, updateSortedNodes.
  destruct c as [keys m members weights mode reps]. simpl. by intros ->.
Qed.

(** X18.  In unweighted mode [AddNodes] and [RemoveNodes] called with no
    node return the ring unchanged, with any fuel. *)
Theorem X18_no_nodes_no_change ks fuel c :
  reachable c → isWeighted c = false →
  AddNodes ks fuel c [] = Some c ∧ RemoveNodes ks fuel c [] = Some c.
Proof.
  intros Hc%reachable_wellSorted Hmode.
  unfold AddNodes, RemoveNodes. rewrite Hmode.
  split; [by apply addNoWeightNodes_nil | by apply removeNoWeightNodes_nil].
Qed.

(** X19.  On an unweighted ring without members [SetNodes] with at least
    one node does what [AddNodes] does (and [updateLocator] with it). *)
Theorem X19_SetNodes_without_members ks fuel c nodes :
  reachable c → isWeighted c = false → allNodes c = ∅ → nodes ≠ [] →
  ks ≡ₚ elements (allNodes c) →
  SetNodes ks fuel c nodes = AddNodes ks fuel c nodes ∧
  updateLocator ks fuel c nodes = AddNodes ks fuel c nodes.
Proof.
  intros Hc%reachable_wellSorted Hmode Hmembers Hnodes Hks.
  rewrite Hmembers, elements_empty in Hks. apply Permutation_nil_r in Hks as ->.
  pose proof (removeNoWeightNodes_nil fuel c Hc) as Hremove.
  assert (Hadd : nodesToBeAdded (allNodes c) nodes = nodes).
  { unfold nodesToBeAdded. rewrite Hmembers, elements_empty. simpl.
    induction nodes as [|v rest IH]; [done|].
    rewrite filter_cons_True by (simpl; tauto).
    destruct rest as [|w rest]; [done|]. by rewrite IH. }
  assert (SetNodes [] fuel c nodes = AddNodes [] fuel c nodes) as Heq.
  { unfold SetNodes, AddNodes, setNoWeightNodes, takesFullClear, nodesToBeRemoved.
    rewrite Hmode, filter_nil. destruct nodes as [|v rest]; [done|].
    cbn [length Nat.eqb]. rewrite Hremove. cbn [mbind option_bind].
    by rewrite Hadd. }
  by split.
Qed.

End settings.

(** ** Adding a node and removing it again *)

Section round_trip.

Context {Node : Type} `{Countable Node} {env : Collaborators Node}.
Implicit Types (c : HashRing Node) (p : Z) (node owner : Node)
  (m T : gmap Z Node).








End round_trip.

(** ** The further properties on the concrete rings *)

Lemma Collide_step_AddNodes_ring1 :
  step (env := Collide.env) Collide.ring1 (OpAddNodes [2]) Collide.ring12.
Proof. run_step (elements (allNodes Collide.ring1)) 10%nat. Qed.

Lemma More_reachable_ringWeighted1 :
  reachable (env := Collide.env) More.ringWeighted1.
Proof.
  apply (reachable_step Collide.ringWeighted (OpSetNodes [1])).
  - apply reachable_New.
  - run_step (@nil Z) 10%nat.
Qed.

Lemma Collide_derives_3 (k : Z) :
  getIterateHashKeyForNode (Collaborators := Collide.env) 3 k = [300 + k].
Proof. simpl. unfold Collide.positions. case_decide as Hk; [by destruct Hk|done]. Qed.


Lemma X1_sorted_index_witness :
  StronglySorted Z.lt (sortedKeys Collide.ring12) ∧
  (∀ p, p ∈ sortedKeys Collide.ring12 ↔ is_Some (nodeByKey Collide.ring12 !! p)) ∧
  length (sortedKeys Collide.ring12) = size (nodeByKey Collide.ring12).
Proof.
  apply (X1_sorted_index (env := Collide.env)), Collide_reachable_ring12.
Defined.

Lemma X2_Get_found_iff_stored_witness :
  (nodeByKey Collide.ring12 = ∅ →
     Get (env := Collide.env) Collide.ring12 "abc" = Some (0, false)) ∧
  (nodeByKey Collide.ring12 ≠ ∅ →
     ∃ p node, nodeByKey Collide.ring12 !! p = Some node ∧
       Get (env := Collide.env) Collide.ring12 "abc" = Some (node, true)).
Proof.
  apply (X2_Get_found_iff_stored (env := Collide.env)), Collide_reachable_ring12.
Defined.

Lemma X3_tailSearch_witness :
  ∃ i : nat,
    tailSearch Collide.ring12 150
      = (i, bool_decide (i < length (sortedKeys Collide.ring12))%nat) ∧
    (∀ p, sortedKeys Collide.ring12 !! i = Some p →
       leastStoredFrom Collide.ring12 150 p) ∧
    ((length (sortedKeys Collide.ring12) ≤ i)%nat →
       i = length (sortedKeys Collide.ring12) ∧
       ∀ q, stored Collide.ring12 q → q < 150).
Proof.
  apply (X3_tailSearch (env := Collide.env)), Collide_reachable_ring12.
Defined.

Lemma X4_getMaxHashKey_witness :
  (nodeByKey Collide.ring12 = ∅ → getMaxHashKey Collide.ring12 = (0, false)) ∧
  (nodeByKey Collide.ring12 ≠ ∅ →
     ∃ k, getMaxHashKey Collide.ring12 = (k, true) ∧ stored Collide.ring12 k ∧
       ∀ q, stored Collide.ring12 q → q ≤ k).
Proof.
  apply (X4_getMaxHashKey (env := Collide.env)), Collide_reachable_ring12.
Defined.

Lemma X5_GetSince_each_owner_once_witness :
  (nodeByKey Collide.ring12 = ∅ →
     ∀ yield, GetSince (env := Collide.env) Collide.ring12 "abc" yield = Some []) ∧
  (nodeByKey Collide.ring12 ≠ ∅ →
     ∃ first rest,
       GetSince (env := Collide.env) Collide.ring12 "abc" consumeAll
         = Some (first :: rest) ∧
       Get (env := Collide.env) Collide.ring12 "abc" = Some (first, true) ∧
       NoDup (first :: rest) ∧
       list_to_set (first :: rest) = owners Collide.ring12).
Proof.
  apply (X5_GetSince_each_owner_once (env := Collide.env)),
    Collide_reachable_ring12.
Defined.

Lemma X6_GetSince_clockwise_witness :
  (startIndex Collide.ring12 (getHashKey (Collaborators := Collide.env) "abc")
     < length (sortedKeys Collide.ring12))%nat ∧
  GetSince (env := Collide.env) Collide.ring12 "abc" consumeAll =
    Some (yieldNew ∅
            (drop (startIndex Collide.ring12
                     (getHashKey (Collaborators := Collide.env) "abc"))
               (ownersInOrder (env := Collide.env) Collide.ring12) ++
             take (startIndex Collide.ring12
                     (getHashKey (Collaborators := Collide.env) "abc"))
               (ownersInOrder (env := Collide.env) Collide.ring12))).
Proof.
  apply (X6_GetSince_clockwise (env := Collide.env)).
  - apply Collide_reachable_ring12.
  - apply Collide_nodeByKey_ring12_nonempty.
Defined.


Lemma X8_AddNodes_never_overwrites_witness :
  (∀ p n, nodeByKey Collide.ring1 !! p = Some n →
     nodeByKey Collide.ring12 !! p = Some n) ∧
  (∀ p n, nodeByKey Collide.ring12 !! p = Some n →
     nodeByKey Collide.ring1 !! p = Some n ∨ n ∈ [2]).
Proof.
  apply (X8_AddNodes_never_overwrites (env := Collide.env)).
  - reflexivity.
  - apply Collide_step_AddNodes_ring1.
Defined.

Lemma X9_AddNodes_churn_witness :
  ∃ node', Get (env := Collide.env) Collide.ring12 "abc" = Some (node', true) ∧
    (node' = 1 ∨ node' ∈ [2]).
Proof.
  apply (X9_AddNodes_churn (env := Collide.env) Collide.ring1).
  - apply Collide_reachable_ring1.
  - reflexivity.
  - apply Collide_step_AddNodes_ring1.
  - by vm_compute.
Defined.

Lemma X10_RemoveNodes_churn_witness :
  Get (env := Collide.env) Collide.ring2 "abc" = Some (2, true).
Proof.
  apply (X10_RemoveNodes_churn (env := Collide.env) Collide.ring12 [1]).
  - apply Collide_reachable_ring12.
  - reflexivity.
  - apply Collide_step_RemoveNodes_ring12.
  - by vm_compute.
  - intros y Hy. apply list_elem_of_singleton in Hy as ->. by vm_compute.
Defined.

Lemma X11_RemoveNodes_only_deletes_witness :
  (∀ p n, nodeByKey Collide.ring2 !! p = Some n →
     nodeByKey Collide.ring12 !! p = Some n) ∧
  (∀ p n, nodeByKey Collide.ring12 !! p = Some n →
     (∀ y, y ∈ [1] → isSameNode (env := Collide.env) n y = false) →
     nodeByKey Collide.ring2 !! p = Some n).
Proof.
  apply (X11_RemoveNodes_only_deletes (env := Collide.env)).
  - reflexivity.
  - apply Collide_step_RemoveNodes_ring12.
Defined.

Lemma X12_SetNodes_frame_witness :
  2 ∈ allNodes More.ring123 ∧
  positionsOf More.ring123 2 = positionsOf Collide.ring12 2.
Proof.
  apply (X12_SetNodes_frame (env := Collide.env) [1; 2] 10 Collide.ring12
           [1; 2; 3]).
  - reflexivity.
  - apply Collide_order_ring12.
  - by vm_compute.
  - by vm_compute.
  - by vm_compute.
  - exists 2. split; [set_solver | by vm_compute].
Defined.

Lemma X13_SetNodes_twice_witness :
  SetNodes (env := Collide.env) (elements (allNodes More.ring123)) 10
    More.ring123 [1; 2; 3] = Some More.ring123.
Proof.
  apply (X13_SetNodes_twice (env := Collide.env) [1; 2] 10 Collide.ring12).
  - apply Collide_order_ring12.
  - by vm_compute.
  - right. discriminate.
  - reflexivity.
Defined.

Lemma X14_addNodeWithoutSort_budget_witness :
  3 ∈ allNodes More.ring13 ∧
  (Z.of_nat (size (nodeByKey More.ring13))
     = Z.of_nat (size (nodeByKey Collide.ring1)) + 2 ∨
   Z.of_nat (size (nodeByKey More.ring13))
     = Z.of_nat (size (nodeByKey Collide.ring1)) + 2 + 1) ∧
  (∀ p n, nodeByKey More.ring13 !! p = Some n →
     nodeByKey Collide.ring1 !! p = Some n ∨ n = 3).
Proof.
  apply (X14_addNodeWithoutSort_budget (env := Collide.env) 10 Collide.ring1 3 2
           (MkHashRing (sortedKeys Collide.ring1) (nodeByKey More.ring13)
              (allNodes More.ring13) ∅ false 2)).
  - intros k. by rewrite Collide_derives_3.
  - lia.
  - by vm_compute.
Defined.

Lemma X15_operations_keep_settings_witness :
  weightByNode Collide.ring12 = weightByNode Collide.ring1 ∧
  isWeighted Collide.ring12 = isWeighted Collide.ring1 ∧
  numReps Collide.ring12 = numReps Collide.ring1.
Proof.
  apply (X15_operations_keep_settings (env := Collide.env) _ (OpAddNodes [2])),
    Collide_step_AddNodes_ring1.
Defined.

Lemma X16_weighted_has_weights_witness :
  isWeighted More.ringWeighted1 = true ∧ weightByNode More.ringWeighted1 ≠ ∅.
Proof.
  split; [reflexivity|].
  apply (X16_weighted_has_weights (env := Collide.env)).
  - apply More_reachable_ringWeighted1.
  - reflexivity.
Defined.


Lemma X18_no_nodes_no_change_witness :
  AddNodes (env := Collide.env) [] 0 Collide.ring12 [] = Some Collide.ring12 ∧
  RemoveNodes (env := Collide.env) [] 0 Collide.ring12 [] = Some Collide.ring12.
Proof.
  apply (X18_no_nodes_no_change (env := Collide.env)).
  - apply Collide_reachable_ring12.
  - reflexivity.
Defined.

Lemma X19_SetNodes_without_members_witness :
  SetNodes (env := Collide.env) [] 10 Collide.ringLeftover [3]
    = AddNodes (env := Collide.env) [] 10 Collide.ringLeftover [3] ∧
  updateLocator (env := Collide.env) [] 10 Collide.ringLeftover [3]
    = AddNodes (env := Collide.env) [] 10 Collide.ringLeftover [3].
Proof.
  apply (X19_SetNodes_without_members (env := Collide.env)).
  - apply Collide_reachable_ringLeftover.
  - reflexivity.
  - reflexivity.
  - discriminate.
  - by vm_compute.
Defined.

